(** * Healthcare Translation Web App: the Transcriber component and the
      /api/translate route, embedded and verified.

    The client is the React function component [Transcriber] of
    client/src/App.jsx. It is driven by callbacks: SpeechRecognition events,
    a debounce timer, the response of a fetch, and three buttons. The server
    is the single Express route listed in README.md. Both are embedded here
    as executable functions over an explicit world: the React state, the two
    refs, the browser objects the component talks to, and a log of the calls
    it makes on them. *)

From Stdlib Require Import String Ascii.
From Stdlib Require Import List Bool Arith NArith Lia.
From Stdlib Require Import SpecFloat.
Import ListNotations.

Set Warnings "-register-all".

(* ===================================================================== *)
(** ** JavaScript values *)
(* ===================================================================== *)

Module JS.

(** A JavaScript string is a sequence of UTF-16 code units. *)
Definition code_unit := N.
Definition jsstring := list code_unit.

(** String literals of the source (all of them are ASCII). *)
Definition lit (s : String.string) : jsstring :=
  map Ascii.N_of_ascii (String.list_ascii_of_string s).

Definition str_eqb (a b : jsstring) : bool :=
  if list_eq_dec N.eq_dec a b then true else false.

(** [String.prototype.trim] strips WhiteSpace and LineTerminator code
    points (ECMA-262, 22.1.3.32 with 12.2 and 12.3). All of them lie in the
    basic plane, so they are single code units. *)
Definition is_white_space (c : code_unit) : bool :=
  ((9 <=? c) && (c <=? 13)            (* TAB LF VT FF CR *)
   || (c =? 32)                       (* SPACE *)
   || (c =? 160)                      (* NO-BREAK SPACE *)
   || (c =? 5760)                     (* OGHAM SPACE MARK *)
   || ((8192 <=? c) && (c <=? 8202))  (* EN QUAD .. HAIR SPACE *)
   || (c =? 8232) || (c =? 8233)      (* LINE / PARAGRAPH SEPARATOR *)
   || (c =? 8239)                     (* NARROW NO-BREAK SPACE *)
   || (c =? 8287)                     (* MEDIUM MATHEMATICAL SPACE *)
   || (c =? 12288)                    (* IDEOGRAPHIC SPACE *)
   || (c =? 65279))%N.                (* ZERO WIDTH NO-BREAK SPACE *)

Fixpoint trim_start (s : jsstring) : jsstring :=
  match s with
  | [] => []
  | c :: s' => if is_white_space c then trim_start s' else s
  end.

Definition trim_end (s : jsstring) : jsstring := rev (trim_start (rev s)).

Definition trim (s : jsstring) : jsstring := trim_end (trim_start s).

(** [s.startsWith(p)] *)
Fixpoint starts_with (s p : jsstring) : bool :=
  match p, s with
  | [], _ => true
  | _ :: _, [] => false
  | a :: p', b :: s' => (a =? b)%N && starts_with s' p'
  end.

(** The values a state variable or a parsed JSON body can hold. Numbers
    are IEEE 754 doubles. *)
Inductive value : Type :=
| VUndefined
| VNull
| VBool (b : bool)
| VNumber (x : spec_float)
| VString (s : jsstring)
| VArray (items : list value)
| VObject (props : list (jsstring * value)).

(** ToBoolean (ECMA-262, 7.1.2): what [if (v)], [!v] and [v || w] test. *)
Definition to_boolean (v : value) : bool :=
  match v with
  | VUndefined | VNull => false
  | VBool b => b
  | VNumber (S754_zero _) | VNumber S754_nan => false
  | VNumber _ => true
  | VString [] => false
  | VString (_ :: _) => true
  | VArray _ | VObject _ => true
  end.

Fixpoint own_property (props : list (jsstring * value)) (k : jsstring)
  : option value :=
  match props with
  | [] => None
  | (k', v) :: rest => if str_eqb k' k then Some v else own_property rest k
  end.

(** A thrown error: [err.name] and [err.message]. The message of an
    error the engine raises is engine-specific text and is left empty. *)
Record exn : Type := { exn_name : jsstring; exn_message : jsstring }.

Definition TypeError : exn :=
  {| exn_name := lit "TypeError"; exn_message := [] |}.
Definition InvalidStateError : exn :=
  {| exn_name := lit "InvalidStateError"; exn_message := [] |}.

(** [String(err)] (Error.prototype.toString) *)
Definition exn_to_string (e : exn) : jsstring :=
  match exn_name e, exn_message e with
  | n, [] => n
  | [], m => m
  | n, m => n ++ lit ": " ++ m
  end.

(** [v.k] for a key [k] that no built-in prototype defines (the source
    reads [translated] only): the own property of an object, [undefined] on
    any other value, and a TypeError on [null] and [undefined]. *)
Definition get (v : value) (k : jsstring) : value + exn :=
  match v with
  | VUndefined | VNull => inr TypeError
  | VObject props =>
      match own_property props k with
      | Some x => inl x
      | None => inl VUndefined
      end
  | _ => inl VUndefined
  end.

(** [v?.k] *)
Definition get_optional (v : value) (k : jsstring) : value :=
  match get v k with
  | inl x => x
  | inr _ => VUndefined
  end.

(** [v[0]] on a value that is neither [null] nor [undefined] *)
Definition get_first (v : value) : value :=
  match v with
  | VArray (x :: _) => x
  | VString (c :: _) => VString [c]
  | VObject props =>
      match own_property props (lit "0") with
      | Some x => x
      | None => VUndefined
      end
  | _ => VUndefined
  end.

Definition str (s : String.string) : value := VString (lit s).

End JS.

Import JS.

(* ===================================================================== *)
(** ** The browser objects the component uses *)
(* ===================================================================== *)

Module Browser.

(** *** SpeechRecognition objects

    The Web Speech API keeps, for every SpeechRecognition object, whether
    it has been started: [start()] on an object that is started and has not
    yet fired [end] throws InvalidStateError; [stop()] on an object that is
    not capturing and [abort()] on one that is neither capturing nor stopping
    are ignored; the [end] event returns the object to its initial state. *)
Inductive phase : Type :=
| Inactive      (* never started, or [end] has fired *)
| Capturing     (* started: the session is listening *)
| Stopping      (* [stop()] called, [end] not yet fired *)
| Aborting.     (* [abort()] called, [end] not yet fired *)

(** One SpeechRecognition object as [createRecognition] configures it.
    The four handlers are installed together and set to [null] together;
    [rec_closure] is [Some o] while they are installed, [o] being the value
    of the state variable [original] in the render whose
    [createRecognition] built them (the only state variable the handlers
    read), and [None] once they are [null]. *)
Record Recognition : Type := {
  rec_continuous : bool;
  rec_interimResults : bool;
  rec_lang : jsstring;
  rec_maxAlternatives : N;
  rec_closure : option jsstring;
  rec_phase : phase
}.

Definition with_phase (p : phase) (r : Recognition) : Recognition :=
  {| rec_continuous := rec_continuous r;
     rec_interimResults := rec_interimResults r;
     rec_lang := rec_lang r;
     rec_maxAlternatives := rec_maxAlternatives r;
     rec_closure := rec_closure r;
     rec_phase := p |}.

Definition without_handlers (r : Recognition) : Recognition :=
  {| rec_continuous := rec_continuous r;
     rec_interimResults := rec_interimResults r;
     rec_lang := rec_lang r;
     rec_maxAlternatives := rec_maxAlternatives r;
     rec_closure := None;
     rec_phase := rec_phase r |}.


(** One entry of [ev.results]: [isFinal] and [[0].transcript]. *)
Record SpeechResult : Type := {
  isFinal : bool;
  transcript : jsstring
}.

Record ResultEvent : Type := {
  resultIndex : nat;
  results : list SpeechResult
}.

Record ErrorEvent : Type := { error : jsstring }.

(** *** speechSynthesis *)
Record Voice : Type := {
  voice_name : jsstring;
  voice_lang : jsstring
}.

Record Utterance : Type := {
  utter_text : value;
  utter_voice : option Voice;
  utter_lang : jsstring
}.

Record Synth : Type := {
  speaking : bool;
  voices : list Voice;
  queue : list Utterance
}.

(** *** fetch *)
Record Request : Type := {
  req_id : nat;
  req_url : jsstring;
  req_text : jsstring;
  req_outputLang : jsstring
}.

(** How the two awaits of [translateText] can complete. *)
Inductive Outcome : Type :=
| FetchRejected (e : exn)      (* [await fetch(...)] throws *)
| JsonRejected (e : exn)       (* [await resp.json()] throws *)
| Parsed (data : value).       (* [resp.json()] yields [data] *)

(** Calls made on the browser, in order. *)
Inductive Call : Type :=
| RecStart (id : nat)
| RecStop (id : nat)
| RecAbort (id : nat)
| SynthCancel
| SynthSpeak (u : Utterance)
| Fetch (r : Request)
| SetTimeout (delay : nat)
| ClearTimeout (id : nat).

End Browser.

Import Browser.

(* ===================================================================== *)
(** ** The world of the component, and computations over it *)
(* ===================================================================== *)

Module World.

(** The six [useState] variables of [Transcriber]. [translated] holds
    whatever [setTranslated] was given, which is a string or any value of
    a response body. *)
Record ReactState : Type := {
  listening : bool;
  original : jsstring;
  translated : value;
  inputLang : jsstring;
  outputLang : jsstring;
  status : jsstring
}.

(** What the page was loaded with and never changes. *)
Record Environment : Type := {
  (* "SpeechRecognition" in window || "webkitSpeechRecognition" in window *)
  has_speech_recognition : bool;
  (* import.meta.env.VITE_BACKEND_URL, [None] when not defined *)
  vite_backend_url : option jsstring
}.

(** A pending [setTimeout] of the debounce effect: the id [setTimeout]
    returned, when it is due, and the render whose state variables its
    callback closes over. Timers are independent of one another: each stays
    pending until it fires or [clearTimeout] is called with its id. *)
Record Timer : Type := {
  timer_id : nat;
  deadline : nat;
  timer_scope : ReactState
}.

Record World : Type := {
  react : ReactState;
  recognitionRef : option nat;          (* recognitionRef.current *)
  lastResultRef : jsstring;             (* lastResultRef.current *)
  lang_deps : option jsstring;          (* deps of the last run of effect 1 *)
  lang_cleanup : bool;                  (* whether that run returned a cleanup *)
  pair_deps : option (jsstring * jsstring);
                                        (* deps of the last run of effect 2 *)
  debounce_id : option nat;             (* the timer id its cleanup closes over *)
  env : Environment;
  heap : list Recognition;              (* the SpeechRecognition objects built *)
  synth : Synth;                        (* synthRef.current, taken to exist *)
  clock : nat;                          (* milliseconds *)
  timers : list Timer;                  (* the pending setTimeouts, oldest first *)
  inflight : list Request;              (* fetches awaiting their response *)
  calls : list Call                     (* calls on the browser, oldest first *)
}.

Definition set_react v w :=
  {| react := v; recognitionRef := recognitionRef w;
     lastResultRef := lastResultRef w; lang_deps := lang_deps w;
     lang_cleanup := lang_cleanup w; pair_deps := pair_deps w;
     debounce_id := debounce_id w; env := env w; heap := heap w;
     synth := synth w; clock := clock w; timers := timers w;
     inflight := inflight w; calls := calls w |}.

Definition set_recognitionRef v w :=
  {| react := react w; recognitionRef := v;
     lastResultRef := lastResultRef w; lang_deps := lang_deps w;
     lang_cleanup := lang_cleanup w; pair_deps := pair_deps w;
     debounce_id := debounce_id w; env := env w; heap := heap w;
     synth := synth w; clock := clock w; timers := timers w;
     inflight := inflight w; calls := calls w |}.

Definition set_lastResultRef v w :=
  {| react := react w; recognitionRef := recognitionRef w;
     lastResultRef := v; lang_deps := lang_deps w;
     lang_cleanup := lang_cleanup w; pair_deps := pair_deps w;
     debounce_id := debounce_id w; env := env w; heap := heap w;
     synth := synth w; clock := clock w; timers := timers w;
     inflight := inflight w; calls := calls w |}.

Definition set_lang_effect d c w :=
  {| react := react w; recognitionRef := recognitionRef w;
     lastResultRef := lastResultRef w; lang_deps := d; lang_cleanup := c;
     pair_deps := pair_deps w; debounce_id := debounce_id w; env := env w;
     heap := heap w; synth := synth w; clock := clock w; timers := timers w;
     inflight := inflight w; calls := calls w |}.

Definition set_pair_deps v w :=
  {| react := react w; recognitionRef := recognitionRef w;
     lastResultRef := lastResultRef w; lang_deps := lang_deps w;
     lang_cleanup := lang_cleanup w; pair_deps := v;
     debounce_id := debounce_id w; env := env w; heap := heap w;
     synth := synth w; clock := clock w; timers := timers w;
     inflight := inflight w; calls := calls w |}.

Definition set_debounce_id v w :=
  {| react := react w; recognitionRef := recognitionRef w;
     lastResultRef := lastResultRef w; lang_deps := lang_deps w;
     lang_cleanup := lang_cleanup w; pair_deps := pair_deps w;
     debounce_id := v; env := env w; heap := heap w; synth := synth w;
     clock := clock w; timers := timers w; inflight := inflight w;
     calls := calls w |}.

Definition set_heap v w :=
  {| react := react w; recognitionRef := recognitionRef w;
     lastResultRef := lastResultRef w; lang_deps := lang_deps w;
     lang_cleanup := lang_cleanup w; pair_deps := pair_deps w;
     debounce_id := debounce_id w; env := env w; heap := v;
     synth := synth w; clock := clock w; timers := timers w;
     inflight := inflight w; calls := calls w |}.

Definition set_synth v w :=
  {| react := react w; recognitionRef := recognitionRef w;
     lastResultRef := lastResultRef w; lang_deps := lang_deps w;
     lang_cleanup := lang_cleanup w; pair_deps := pair_deps w;
     debounce_id := debounce_id w; env := env w; heap := heap w; synth := v;
     clock := clock w; timers := timers w; inflight := inflight w;
     calls := calls w |}.

Definition set_clock v w :=
  {| react := react w; recognitionRef := recognitionRef w;
     lastResultRef := lastResultRef w; lang_deps := lang_deps w;
     lang_cleanup := lang_cleanup w; pair_deps := pair_deps w;
     debounce_id := debounce_id w; env := env w; heap := heap w;
     synth := synth w; clock := v; timers := timers w;
     inflight := inflight w; calls := calls w |}.

Definition set_timers v w :=
  {| react := react w; recognitionRef := recognitionRef w;
     lastResultRef := lastResultRef w; lang_deps := lang_deps w;
     lang_cleanup := lang_cleanup w; pair_deps := pair_deps w;
     debounce_id := debounce_id w; env := env w; heap := heap w;
     synth := synth w; clock := clock w; timers := v;
     inflight := inflight w; calls := calls w |}.

Definition set_inflight v w :=
  {| react := react w; recognitionRef := recognitionRef w;
     lastResultRef := lastResultRef w; lang_deps := lang_deps w;
     lang_cleanup := lang_cleanup w; pair_deps := pair_deps w;
     debounce_id := debounce_id w; env := env w; heap := heap w;
     synth := synth w; clock := clock w; timers := timers w; inflight := v;
     calls := calls w |}.

Definition set_calls v w :=
  {| react := react w; recognitionRef := recognitionRef w;
     lastResultRef := lastResultRef w; lang_deps := lang_deps w;
     lang_cleanup := lang_cleanup w; pair_deps := pair_deps w;
     debounce_id := debounce_id w; env := env w; heap := heap w;
     synth := synth w; clock := clock w; timers := timers w;
     inflight := inflight w; calls := v |}.

(** *** Computations: a state monad over [World] in which a step either
    completes normally or throws; what a step did before it threw stays
    done, as in JavaScript. *)
Definition M (A : Type) : Type := World -> (A + exn) * World.

Definition ret {A} (a : A) : M A := fun w => (inl a, w).

Definition throw {A} (e : exn) : M A := fun w => (inr e, w).

Definition bind {A B} (m : M A) (k : A -> M B) : M B :=
  fun w =>
    match m w with
    | (inl a, w') => k a w'
    | (inr e, w') => (inr e, w')
    end.

(** [try { body } catch (err) { handler err }] *)
Definition try_catch {A} (body : M A) (handler : exn -> M A) : M A :=
  fun w =>
    match body w with
    | (inl a, w') => (inl a, w')
    | (inr e, w') => handler e w'
    end.

(** [try { body } catch (_) {}] *)
Definition try_ignore (body : M unit) : M unit :=
  try_catch body (fun _ => ret tt).

Definition gets {A} (f : World -> A) : M A := fun w => (inl (f w), w).

Definition modify (f : World -> World) : M unit := fun w => (inl tt, f w).

Definition call (c : Call) : M unit :=
  modify (fun w => set_calls (calls w ++ [c]) w).

(** The world a computation leaves, and whether it threw. *)
Definition exec {A} (m : M A) (w : World) : World := snd (m w).

Definition threw {A} (m : M A) (w : World) : bool :=
  match fst (m w) with inl _ => false | inr _ => true end.

End World.

Import World.

Declare Scope js_scope.
Delimit Scope js_scope with js.
Notation "x <- m ;; k" := (bind m (fun x => k))
  (at level 61, m at next level, right associativity) : js_scope.
Notation "m ;; k" := (bind m (fun _ => k))
  (at level 61, right associativity) : js_scope.
Open Scope js_scope.

(* ===================================================================== *)
(** ** client/src/App.jsx: the component [Transcriber] *)
(* ===================================================================== *)

Module Transcriber.

(** *** The state setters returned by [useState] *)

Definition with_listening v r :=
  {| listening := v; original := original r; translated := translated r;
     inputLang := inputLang r; outputLang := outputLang r; status := status r |}.
Definition with_original v r :=
  {| listening := listening r; original := v; translated := translated r;
     inputLang := inputLang r; outputLang := outputLang r; status := status r |}.
Definition with_translated v r :=
  {| listening := listening r; original := original r; translated := v;
     inputLang := inputLang r; outputLang := outputLang r; status := status r |}.
Definition with_inputLang v r :=
  {| listening := listening r; original := original r; translated := translated r;
     inputLang := v; outputLang := outputLang r; status := status r |}.
Definition with_outputLang v r :=
  {| listening := listening r; original := original r; translated := translated r;
     inputLang := inputLang r; outputLang := v; status := status r |}.
Definition with_status v r :=
  {| listening := listening r; original := original r; translated := translated r;
     inputLang := inputLang r; outputLang := outputLang r; status := v |}.

Definition setListening (v : bool) : M unit :=
  modify (fun w => set_react (with_listening v (react w)) w).
Definition setOriginal (v : jsstring) : M unit :=
  modify (fun w => set_react (with_original v (react w)) w).
Definition setTranslated (v : value) : M unit :=
  modify (fun w => set_react (with_translated v (react w)) w).
Definition setInputLang (v : jsstring) : M unit :=
  modify (fun w => set_react (with_inputLang v (react w)) w).
Definition setOutputLang (v : jsstring) : M unit :=
  modify (fun w => set_react (with_outputLang v (react w)) w).
Definition setStatus (v : jsstring) : M unit :=
  modify (fun w => set_react (with_status v (react w)) w).
(** [setStatus(prev => f(prev))] *)
Definition setStatus_fn (f : jsstring -> jsstring) : M unit :=
  modify (fun w => set_react (with_status (f (status (react w))) (react w)) w).

(** A handler reads the state variables of the render that created it,
    its scope; a setter writes the state the next render will see. *)
Definition Scope : Type := ReactState.

(** *** Methods of the browser objects *)

Fixpoint update {A} (i : nat) (f : A -> A) (l : list A) : list A :=
  match l, i with
  | [], _ => []
  | x :: l', O => f x :: l'
  | x :: l', S i' => x :: update i' f l'
  end.

Definition set_phase (id : nat) (p : phase) : M unit :=
  modify (fun w => set_heap (update id (with_phase p) (heap w)) w).

Definition phase_of (id : nat) (w : World) : option phase :=
  option_map rec_phase (nth_error (heap w) id).

(** [rec.start()] *)
Definition rec_start (id : nat) : M unit :=
  call (RecStart id);;
  p <- gets (phase_of id);;
  match p with
  | Some Inactive => set_phase id Capturing
  | _ => throw InvalidStateError
  end.

(** [rec.stop()] *)
Definition rec_stop (id : nat) : M unit :=
  call (RecStop id);;
  p <- gets (phase_of id);;
  match p with
  | Some Capturing => set_phase id Stopping
  | _ => ret tt
  end.

(** [rec.abort()] *)
Definition rec_abort (id : nat) : M unit :=
  call (RecAbort id);;
  p <- gets (phase_of id);;
  match p with
  | Some Capturing | Some Stopping => set_phase id Aborting
  | _ => ret tt
  end.

(** [r.m()] where [r] may be [null]. *)
Definition method (r : option nat) (m : nat -> M unit) : M unit :=
  match r with
  | Some id => m id
  | None => throw TypeError
  end.

(** [synth.cancel()] and [synth.speak(utter)] *)
Definition synth_cancel : M unit :=
  call SynthCancel;;
  modify (fun w =>
    set_synth {| speaking := false; voices := voices (synth w); queue := [] |} w).

Definition synth_speak (u : Utterance) : M unit :=
  call (SynthSpeak u);;
  modify (fun w =>
    set_synth {| speaking := true; voices := voices (synth w);
                 queue := queue (synth w) ++ [u] |} w).

(** *** The component *)

Definition hasSpeechRecognition : M bool :=
  gets (fun w => has_speech_recognition (env w)).

(** [createRecognition(lang)]: the new object is appended to the heap and
    its position is its identity. *)
Definition createRecognition (scope : Scope) (lang : jsstring)
  : M (option nat) :=
  has <- hasSpeechRecognition;;
  if negb has then ret None
  else
    id <- gets (fun w => length (heap w));;
    modify (fun w =>
      set_heap (heap w ++
        [{| rec_continuous := true;
            rec_interimResults := true;
            rec_lang := lang;
            rec_maxAlternatives := 1%N;
            rec_closure := Some (original scope);
            rec_phase := Inactive |}]) w);;
    ret (Some id).

(** [rec.onstart] *)
Definition onstart : M unit :=
  setListening true;;
  setStatus (lit "listening").

(** [rec.onend] *)
Definition onend : M unit :=
  setListening false;;
  setStatus_fn (fun prev =>
    if str_eqb prev (lit "network-error") then prev else lit "idle").

(** The loop of [rec.onresult]: [(final, interim)] after the results from
    [resultIndex] on. *)
Definition collect (ev : ResultEvent) : jsstring * jsstring :=
  fold_left
    (fun (acc : jsstring * jsstring) (r : SpeechResult) =>
       let (final, interim) := acc in
       if isFinal r then (final ++ (transcript r ++ lit " "), interim)
       else (final, interim ++ transcript r))
    (skipn (resultIndex ev) (results ev))
    ([], []).

(** [rec.onresult], in the scope in which the recognizer was created *)
Definition onresult (scope_original : jsstring) (ev : ResultEvent) : M unit :=
  let (final, interim) := collect ev in
  let combined :=
    trim (scope_original ++ lit " " ++ final ++ lit " " ++ interim) in
  modify (set_lastResultRef combined);;
  setOriginal combined.

(** [rec.onerror]; [e] is [None] when the argument is not an object. *)
Definition onerror (rec : nat) (e : option ErrorEvent) : M unit :=
  match e with
  | Some ev =>
      if str_eqb (error ev) (lit "network") then
        setStatus (lit "network-error");;
        try_ignore (rec_abort rec)
      else if str_eqb (error ev) (lit "not-allowed") then
        setStatus (lit "permission-denied");;
        try_ignore (rec_abort rec)
      else
        setStatus (lit "error")
  | None => setStatus (lit "error")
  end.

(** The first [useEffect], deps [[inputLang]]: its body and the cleanup
    the body returns. *)
Definition lang_effect (scope : Scope) : M bool :=
  has <- hasSpeechRecognition;;
  if negb has then
    setStatus (lit "no-speech-api");;
    ret false
  else
    r <- createRecognition scope (inputLang scope);;
    modify (set_recognitionRef r);;
    ret true.

Definition remove_handlers (id : nat) : M unit :=
  modify (fun w => set_heap (update id without_handlers (heap w)) w).

Definition lang_effect_cleanup : M unit :=
  r <- gets recognitionRef;;
  match r with
  | Some id =>
      try_ignore (remove_handlers id;; rec_abort id);;
      modify (set_recognitionRef None)
  | None => ret tt
  end.

(** [translateText(text)] up to its first [await]: the request is sent
    and the function is suspended. *)
Definition translateText (scope : Scope) (text : jsstring) : M unit :=
  setStatus (lit "translating");;
  configured <- gets (fun w => vite_backend_url (env w));;
  let backend :=
    match configured with
    | Some (c :: s) => c :: s
    | _ => lit "http://localhost:3000"
    end in
  id <- gets (fun w => length (calls w));;
  let req := {| req_id := id;
                req_url := backend ++ lit "/api/translate";
                req_text := text;
                req_outputLang := outputLang scope |} in
  call (Fetch req);;
  modify (fun w => set_inflight (inflight w ++ [req]) w).

Definition lift {A} (r : A + exn) : M A :=
  match r with
  | inl a => ret a
  | inr e => throw e
  end.

(** [translateText] from the completion of [fetch] on: the rest of the
    [try] block and the [catch]. *)
Definition translateText_resume (o : Outcome) : M unit :=
  try_catch
    (match o with
     | FetchRejected e => throw e
     | JsonRejected e => throw e
     | Parsed data =>
         t <- lift (get data (lit "translated"));;
         if to_boolean t then
           setTranslated t;;
           setStatus (lit "translated")
         else
           setTranslated (str "Translation failed, You exceeded your current quota, please check your plan and billing details.");;
           setStatus (lit "error")
     end)
    (fun err =>
       setTranslated (str "Translation error");;
       setStatus (lit "error")).

(** The second [useEffect], deps [[original, outputLang]]: the callback
    given to [setTimeout], the body and the cleanup. *)
Definition debounce_callback (scope : Scope) : M unit :=
  if 0 <? length (trim (original scope)) then
    translateText scope (original scope)
  else ret tt.

(** The body: [setTimeout] adds a timer of its own and returns its id
    (here the position of the call in the log). *)
Definition debounce_effect (scope : Scope) : M nat :=
  id <- gets (fun w => length (calls w));;
  call (SetTimeout 1000);;
  modify (fun w =>
    set_timers (timers w ++ [{| timer_id := id;
                                deadline := clock w + 1000;
                                timer_scope := scope |}]) w);;
  ret id.

(** The cleanup [() => clearTimeout(id)], [id] being the timer of the run
    that returned it: that timer is removed if it is still pending, and no
    other timer is touched. *)
Definition debounce_cleanup (id : nat) : M unit :=
  call (ClearTimeout id);;
  modify (fun w =>
    set_timers (filter (fun t => negb (timer_id t =? id)) (timers w)) w).

(** [toggleListening] from [const r = recognitionRef.current] on. *)
Definition toggle (scope : Scope) : M unit :=
  r <- gets recognitionRef;;
  if negb (listening scope) then
    try_catch
      (method r rec_start)
      (fun err =>
         if str_eqb (exn_name err) (lit "InvalidStateError") then
           try_ignore (method r rec_abort);;
           r' <- createRecognition scope (inputLang scope);;
           modify (set_recognitionRef r');;
           try_catch
             (r2 <- gets recognitionRef;; method r2 rec_start)
             (fun e2 => setStatus (lit "error"))
         else
           setStatus (lit "error"))
  else
    (* [typeof r.stop === "function"] holds of every recognizer *)
    try_catch
      (method r rec_stop)
      (fun e => try_ignore (method r rec_abort)).

Definition toggleListening (scope : Scope) : M unit :=
  rec <- gets recognitionRef;;
  match rec with
  | None =>
      has <- hasSpeechRecognition;;
      if negb has then
        setStatus (lit "no-speech-api")
      else
        r <- createRecognition scope (inputLang scope);;
        modify (set_recognitionRef r);;
        toggle scope
  | Some _ => toggle scope
  end.

Definition voice_matches (lang : jsstring) (v : Voice) : bool :=
  match voice_lang v with
  | [] => false
  | _ :: _ => starts_with (voice_lang v) lang
  end.

Definition speak (scope : Scope) : M unit :=
  if negb (to_boolean (translated scope)) then ret tt
  else
    s <- gets synth;;
    (if speaking s then synth_cancel else ret tt);;
    vs <- gets (fun w => voices (synth w));;
    let utter := {| utter_text := translated scope;
                    utter_voice := find (voice_matches (outputLang scope)) vs;
                    utter_lang := outputLang scope |} in
    synth_speak utter.

Definition clearAll : M unit :=
  setOriginal (lit "");;
  setTranslated (str "");;
  modify (set_lastResultRef (lit "")).

(** [onChange] of the two selects *)
Definition onChange_inputLang (v : jsstring) : M unit :=
  try_ignore
    (r <- gets recognitionRef;;
     match r with
     | Some id => rec_abort id
     | None => ret tt
     end);;
  setInputLang v.

Definition onChange_outputLang (v : jsstring) : M unit :=
  setOutputLang v.

End Transcriber.

Import Transcriber.

(* ===================================================================== *)
(** ** React and the event loop *)
(* ===================================================================== *)

Module Runtime.

(** The first render: the initial values given to [useState] and
    [useRef]. *)
Definition initial (e : Environment) (vs : list Voice) : World :=
  {| react := {| listening := false;
                 original := lit "";
                 translated := str "";
                 inputLang := lit "en-US";
                 outputLang := lit "bn";
                 status := lit "idle" |};
     recognitionRef := None;
     lastResultRef := lit "";
     lang_deps := None;
     lang_cleanup := false;
     pair_deps := None;
     debounce_id := None;
     env := e;
     heap := [];
     synth := {| speaking := false; voices := vs; queue := [] |};
     clock := 0;
     timers := [];
     inflight := [];
     calls := [] |}.

Definition lang_changed (w : World) : bool :=
  match lang_deps w with
  | Some l => negb (str_eqb l (inputLang (react w)))
  | None => true
  end.

Definition pair_changed (w : World) : bool :=
  match pair_deps w with
  | Some (o, l) =>
      negb (str_eqb o (original (react w))
            && str_eqb l (outputLang (react w)))
  | None => true
  end.

(** The effects React runs after a render is committed: for every effect
    with a changed dependency, first the cleanups of the previous run, then
    the bodies, in the scope of the new render. The JSX of the render is
    [render] below. *)
Definition commit : M unit :=
  scope <- gets react;;
  lc <- gets lang_changed;;
  pc <- gets pair_changed;;
  had_cleanup <- gets lang_cleanup;;
  armed_id <- gets debounce_id;;
  (if lc && had_cleanup then lang_effect_cleanup else ret tt);;
  (match armed_id with
   | Some id => if pc then debounce_cleanup id else ret tt
   | None => ret tt
   end);;
  (if lc then
     c <- lang_effect scope;;
     modify (set_lang_effect (Some (inputLang scope)) c)
   else ret tt);;
  (if pc then
     id <- debounce_effect scope;;
     modify (set_pair_deps (Some (original scope, outputLang scope)));;
     modify (set_debounce_id (Some id))
   else ret tt).

Definition mount (e : Environment) (vs : list Voice) : World :=
  exec commit (initial e vs).

(** Everything that can happen to the mounted component. *)
Inductive Event : Type :=
| ClickToggle
| ClickSpeak
| ClickClear
| SelectInputLang (v : jsstring)
| SelectOutputLang (v : jsstring)
| RecStarted (id : nat)
| RecEnded (id : nat)
| RecResult (id : nat) (ev : ResultEvent)
| RecError (id : nat) (e : option ErrorEvent)
| Elapse (ms : nat)
| Response (id : nat) (o : Outcome).

Definition closure_of (id : nat) (w : World) : option jsstring :=
  match nth_error (heap w) id with
  | Some r => rec_closure r
  | None => None
  end.

(** A recognizer event runs the handler installed on that object, if
    any. *)
Definition deliver (id : nat) (h : jsstring -> M unit) : M unit :=
  c <- gets (closure_of id);;
  match c with
  | Some o => h o
  | None => ret tt
  end.

Definition request_eqb (id : nat) (r : Request) : bool := req_id r =? id.

(** The timers that are due fire in the order of their deadlines, and
    timers due at the same time in the order in which they were set. A
    callback writes Status and nothing else of the state, so that no effect
    runs in a render between two of them. *)
Definition due (time : nat) (t : Timer) : bool := deadline t <=? time.

Fixpoint insert_by_deadline (t : Timer) (l : list Timer) : list Timer :=
  match l with
  | [] => [t]
  | x :: l' =>
      if deadline t <? deadline x then t :: l
      else x :: insert_by_deadline t l'
  end.

Definition firing_order (l : list Timer) : list Timer :=
  fold_left (fun acc t => insert_by_deadline t acc) l [].

Fixpoint fire (ts : list Timer) : M unit :=
  match ts with
  | [] => ret tt
  | t :: ts' => debounce_callback (timer_scope t);; fire ts'
  end.

Definition handle (e : Event) : M unit :=
  match e with
  | ClickToggle => scope <- gets react;; toggleListening scope
  | ClickSpeak => scope <- gets react;; speak scope
  | ClickClear => clearAll
  | SelectInputLang v => onChange_inputLang v
  | SelectOutputLang v => onChange_outputLang v
  | RecStarted id => deliver id (fun _ => onstart)
  | RecEnded id => set_phase id Inactive;; deliver id (fun _ => onend)
  | RecResult id ev => deliver id (fun o => onresult o ev)
  | RecError id err => deliver id (fun _ => onerror id err)
  | Elapse ms =>
      modify (fun w => set_clock (clock w + ms) w);;
      time <- gets clock;;
      pending <- gets timers;;
      modify (set_timers (filter (fun t => negb (due time t)) pending));;
      fire (firing_order (filter (due time) pending))
  | Response id o =>
      pending <- gets inflight;;
      if existsb (request_eqb id) pending then
        modify (set_inflight
                  (filter (fun r => negb (request_eqb id r)) pending));;
        translateText_resume o
      else ret tt
  end.

(** The handler of an event and the effects of the render it causes. The
    JSX of that render is left to [turn] below; [step] is what happens as
    long as the JSX can be rendered. *)
Definition step (e : Event) : M unit := handle e;; commit.

Fixpoint run (es : list Event) : M unit :=
  match es with
  | [] => ret tt
  | e :: es' => step e;; run es'
  end.

(** What React accepts as a child: text, numbers, booleans, [null],
    [undefined] and arrays of those; an object is refused. *)
Fixpoint valid_child (v : value) : bool :=
  match v with
  | VObject _ => false
  | VArray items =>
      (fix all (l : list value) : bool :=
         match l with
         | [] => true
         | x :: l' => valid_child x && all l'
         end) items
  | _ => true
  end.

Definition invalid_child : exn :=
  {| exn_name := lit "Error";
     exn_message := lit "Objects are not valid as a React child" |}.

(** The JSX of [Transcriber]. Its children are [original], [status] and
    the button label, which are strings, and [translated || <span>...</span>],
    which React refuses when [translated] is truthy and not a valid child. *)
Definition jsx (r : ReactState) : unit + exn :=
  if to_boolean (translated r) && negb (valid_child (translated r))
  then inr invalid_child else inl tt.

Definition render : M unit := r <- gets react;; lift (jsx r).

(** One whole turn of the event loop: the handler, the render, and the
    effects of that render. When the render throws, the effects do not run;
    what React does then (it unmounts the component) is not modelled, and a
    run ends there. *)
Definition turn (e : Event) : M unit := handle e;; render;; commit.

Fixpoint turns (es : list Event) : M unit :=
  match es with
  | [] => ret tt
  | e :: es' => turn e;; turns es'
  end.

(** The fetches a computation sent, oldest first. *)
Definition fetches (cs : list Call) : list Request :=
  flat_map (fun c => match c with Fetch r => [r] | _ => [] end) cs.


End Runtime.

Import Runtime.

(* ===================================================================== *)
(** ** README.md: the route POST /api/translate of the server *)
(* ===================================================================== *)

Module Server.

(** [req.body] as the client sends it: the two fields are strings, and a
    field that is missing reads as [undefined] ([None]). A body that is
    missing altogether reads as [{}]. *)
Record Body : Type := {
  text : option jsstring;
  body_outputLang : option jsstring
}.

Definition empty_body : Body := {| text := None; body_outputLang := None |}.

Record Reply : Type := {
  http_status : nat;
  json : value
}.

Record Message : Type := { role : jsstring; content : jsstring }.

(** The call to the chat completions API. *)
Record Upstream : Type := {
  authorization : jsstring;
  model : jsstring;
  messages : list Message;
  max_tokens : nat
}.

(** The route either answers at once or awaits the upstream API and
    answers from what comes back. *)
Inductive Handling : Type :=
| Answer (r : Reply)
| Await (call : Upstream) (resume : Outcome -> Reply).

(** [`${v}`] of a string or [undefined] *)
Definition template (v : option jsstring) : jsstring :=
  match v with
  | Some s => s
  | None => lit "undefined"
  end.

Definition prompt (t : jsstring) (lang : option jsstring) : list Message :=
  [ {| role := lit "system";
       content := lit "You are a medical-aware translation assistant. Correct transcription errors, normalize medical terminology, preserve meaning, and translate to the requested language. Keep translation concise and suitable for spoken playback." |};
    {| role := lit "user";
       content := lit "Translate the following text into " ++ template lang
                  ++ lit ". If possible, correct medical/clinical term misspellings and deliver a short, clear translation suitable for a healthcare conversation. Respond only with the translated text." |};
    {| role := lit "user"; content := t |} ].

(** The [catch] branch. [detail] is [String(err)]; for the errors that
    the engine raises itself the text of the message is the engine's and is
    left empty here. *)
Definition server_error (err : exn) : Reply :=
  {| http_status := 500;
     json := VObject [(lit "error", str "server error");
                      (lit "detail", VString (exn_to_string err))] |}.

(** The [try] block after [await fetch(...)]. *)
Definition after_upstream (o : Outcome) : Reply :=
  match o with
  | FetchRejected e => server_error e
  | JsonRejected e => server_error e
  | Parsed data =>
      let choices := get_optional data (lit "choices") in
      if to_boolean choices && to_boolean (get_first choices) then
        match get (get_first choices) (lit "message") with
        | inr e => server_error e
        | inl message =>
            match get message (lit "content") with
            | inl (VString c) =>
                {| http_status := 200;
                   json := VObject [(lit "translated", VString (trim c))] |}
            | inl _ => server_error TypeError   (* no [trim] method *)
            | inr e => server_error e
            end
        end
      else
        {| http_status := 500;
           json := VObject [(lit "error", str "No translation result");
                            (lit "raw", data)] |}
  end.

(** [app.post("/api/translate", ...)]; [key] is
    [process.env.OPENAI_API_KEY]. *)
Definition translate_route (key : option jsstring) (body : option Body)
  : Handling :=
  let b := match body with Some b => b | None => empty_body end in
  match text b with
  | None | Some [] =>
      Answer {| http_status := 400;
                json := VObject [(lit "error", str "text required")] |}
  | Some t =>
      let p := prompt t (body_outputLang b) in
      match key with
      | None | Some [] =>
          Answer {| http_status := 200;
                    json := VObject [(lit "translated",
                              VString (lit "(OPENAI_API_KEY not set on server) " ++ t))] |}
      | Some k =>
          Await {| authorization := lit "Bearer " ++ k;
                   model := lit "gpt-4o-mini";
                   messages := p;
                   max_tokens := 500 |}
                after_upstream
      end
  end.

End Server.

(* ===================================================================== *)
(** ** Sample worlds *)
(* ===================================================================== *)

(** A browser with speech recognition, no configured backend and a Spanish
    and a Bengali voice; the component just mounted in it. *)
Definition chrome : Environment :=
  {| has_speech_recognition := true; vite_backend_url := None |}.

Definition sample_voices : list Voice :=
  [ {| voice_name := lit "Monica"; voice_lang := lit "es-ES" |};
    {| voice_name := lit "Bangla"; voice_lang := lit "bn-BD" |} ].

Definition mounted : World := mount chrome sample_voices.

Definition final_result (s : string) : SpeechResult :=
  {| isFinal := true; transcript := lit s |}.

Definition interim_result (s : string) : SpeechResult :=
  {| isFinal := false; transcript := lit s |}.

Definition error_event (kind : string) : option ErrorEvent :=
  Some {| error := lit kind |}.

(** Unfolding the monad. *)
Ltac run_js :=
  cbv [exec threw bind ret throw gets modify call try_catch try_ignore lift
       setListening setOriginal setTranslated setInputLang setOutputLang
       setStatus setStatus_fn];
  cbn [fst snd].

(* ===================================================================== *)
(** ** Vocabulary of the statements *)
(* ===================================================================== *)

(** The two texts the component shows when a translation fails; this is
    the one of the [else] branch. *)
Definition quota_placeholder : value :=
  str "Translation failed, You exceeded your current quota, please check your plan and billing details.".

(** The text of the [catch] branch. *)
Definition error_placeholder : value := str "Translation error".

(** A value is a failure placeholder when it is one of the two. *)
Definition is_failure_placeholder (v : value) : Prop :=
  v = quota_placeholder \/ v = error_placeholder.

(** The response body is an object with a [translated] field of value [t]. *)
Definition has_translated_field (o : Outcome) (t : value) : Prop :=
  exists props,
    o = Parsed (VObject props)
    /\ own_property props (lit "translated") = Some t.



(** The object [createRecognition(inputLang)] builds in a scope. *)
Definition new_recognition (scope : Scope) : Recognition :=
  {| rec_continuous := true; rec_interimResults := true;
     rec_lang := inputLang scope; rec_maxAlternatives := 1%N;
     rec_closure := Some (original scope);
     rec_phase := Inactive |}.

(** Computations that never throw. *)
Definition total {A} (m : M A) : Prop := forall w, threw m w = false.

(** A world is settled when no effect is due: the dependencies of both
    effects are those of the current state. *)
Definition settled (w : World) : Prop :=
  lang_changed w = false /\ pair_changed w = false.

(** A request with this identity awaits its response. *)
Definition in_flight (id : nat) (w : World) : Prop :=
  existsb (request_eqb id) (inflight w) = true.

(** The output language is set to Spanish, the session is started, and
    two utterances are finalized more than a second apart, so that each is
    sent for translation. *)
Definition two_dispatches : list Event :=
  [SelectOutputLang (lit "es"); ClickToggle; RecStarted 0;
   RecResult 0 {| resultIndex := 0;
                  results := [final_result "chest pain"] |};
   Elapse 1000;
   RecResult 0 {| resultIndex := 1;
                  results := [final_result "chest pain";
                              final_result "headache"] |};
   Elapse 1000].

(** A response body [{ translated: s }]. *)
Definition translation_of (s : string) : Outcome :=
  Parsed (VObject [(lit "translated", str s)]).

(** The identity of a request and the pair it was issued for. *)
Definition summary (r : Request) : nat * jsstring * jsstring :=
  (req_id r, req_text r, req_outputLang r).

(** A change of the observed pair, whichever handler makes it
    ([onresult], [clearAll] and the output select are the ones that do),
    followed by the render it causes. *)
Definition change (p : jsstring * jsstring) : M unit :=
  setOriginal (fst p);; setOutputLang (snd p);; commit.

(** A burst: changes, each preceded by the time since the one before. *)
Fixpoint burst (cs : list (nat * (jsstring * jsstring))) : M unit :=
  match cs with
  | [] => ret tt
  | (gap, p) :: cs' => step (Elapse gap);; change p;; burst cs'
  end.

(** Every change of the burst comes less than a second after the one
    before it and is a change indeed. *)
Fixpoint within_window (prev : jsstring * jsstring)
    (cs : list (nat * (jsstring * jsstring))) : Prop :=
  match cs with
  | [] => True
  | (gap, p) :: cs' => gap < 1000 /\ p <> prev /\ within_window p cs'
  end.

(** The pair the debounce effect observes. *)
Definition pair_of (w : World) : jsstring * jsstring :=
  (original (react w), outputLang (react w)).

(** The timer of the latest render is the only one pending, has a full
    second left, and is the one the cleanup of the effect will clear. *)
Definition armed (w : World) : Prop :=
  exists id,
    timers w = [{| timer_id := id; deadline := clock w + 1000;
                   timer_scope := react w |}]
    /\ debounce_id w = Some id.

(** No timer is pending but, at most, the one that the cleanup of the
    last run of the debounce effect holds. *)
Definition tidy (w : World) : Prop :=
  timers w = []
  \/ exists t, timers w = [t] /\ debounce_id w = Some (timer_id t).

(** The response publishes text: its [translated] field, if it has one,
    is a string. *)
Definition text_outcome (o : Outcome) : Prop :=
  forall t, has_translated_field o t -> exists s, t = VString s.

(** The translation shown is a string. *)
Definition shows_text (w : World) : Prop :=
  exists s, translated (react w) = VString s.

(** The world after [setOriginal] and [setOutputLang], before the render. *)
Definition with_pair (p : jsstring * jsstring) (w : World) : World :=
  set_react (with_outputLang (snd p) (with_original (fst p) (react w))) w.

(** Three changes in quick succession, the last one of the language. *)
Definition typing_burst : list (nat * (jsstring * jsstring)) :=
  [(300, (lit "chest", lit "bn"));
   (999, (lit "chest pain", lit "bn"));
   (500, (lit "chest pain", lit "es"))].

(** A short dictation on the recognizer created at mount: "hello" is
    heard, first as an interim and then as a final result, and then "world"
    in the same way. *)
Definition dictation : list Event :=
  [ClickToggle; RecStarted 0;
   RecResult 0 {| resultIndex := 0;
                  results := [interim_result "hel"] |};
   RecResult 0 {| resultIndex := 0;
                  results := [final_result "hello"] |};
   RecResult 0 {| resultIndex := 1;
                  results := [final_result "hello"; interim_result "wor"] |};
   RecResult 0 {| resultIndex := 1;
                  results := [final_result "hello"; final_result "world"] |}].

(* ===================================================================== *)
(** ** Vocabulary of the further properties *)
(* ===================================================================== *)

(** A computation leaves a view of the world as it found it, whether it
    completes or throws. *)
Definition preserves {A T} (v : World -> T) (m : M A) : Prop :=
  forall w, v (exec m w) = v w.

(** The worlds the mounted component can be in. *)
Definition reachable (w : World) : Prop :=
  exists e vs es, w = exec (run es) (mount e vs).

(** What [toggleListening] has no business with: everything but Status,
    [recognitionRef], the recognizers and the call log. *)
Definition beyond_toggle (w : World) :=
  (listening (react w), original (react w), translated (react w),
   inputLang (react w), outputLang (react w), lastResultRef w,
   (lang_deps w, lang_cleanup w, pair_deps w, debounce_id w), env w,
   synth w, (clock w, timers w, inflight w)).

(** Every pending timer was armed by the run of the debounce effect that
    the dependencies record. *)
Definition timer_current (w : World) : Prop :=
  forall t, In t (timers w) ->
    pair_deps w = Some (original (timer_scope t), outputLang (timer_scope t)).

(** What holds of the component between two events. *)
Definition between_events (w : World) : Prop :=
  settled w /\ tidy w /\ timer_current w
  /\ lastResultRef w = original (react w).

(** What React keeps of the last run of each effect. *)
Definition deps (w : World) :=
  (lang_deps w, lang_cleanup w, pair_deps w, debounce_id w).

(** The transcript and its mirror in [lastResultRef]. *)
Definition transcript_pair (w : World) := (original (react w), lastResultRef w).

(** The requests sent so far. *)
Definition sent (w : World) : list Request := fetches (calls w).

(** What a render leaves alone: the three state variables the effects
    depend on, [lastResultRef] and the requests sent. *)
Definition beyond_render (w : World) :=
  (original (react w), outputLang (react w), inputLang (react w),
   lastResultRef w, sent w).

(** What running the first effect leaves alone besides. *)
Definition beyond_lang_effect (w : World) :=
  (beyond_render w, pair_deps w, debounce_id w, timers w).

(** An event that brings text: a response, if that is what it is,
    publishes text. Every other event is one. *)
Definition text_event (e : Event) : Prop :=
  match e with
  | Response _ o => text_outcome o
  | _ => True
  end.

Definition text_events (es : list Event) : Prop := Forall text_event es.

(** The translation the component shows. *)
Definition shown (w : World) : value := translated (react w).

(** A sample consultation: the session is started and one utterance is
    finalized. *)
Definition consultation : list Event :=
  [ClickToggle; RecStarted 0;
   RecResult 0 {| resultIndex := 0;
                  results := [final_result "chest pain"] |}].

(** The reply the route ends up giving, whether at once or after the
    upstream API has answered with [o]. *)
Definition final_reply (h : Server.Handling) (o : Outcome) : Server.Reply :=
  match h with
  | Server.Answer r => r
  | Server.Await _ resume => resume o
  end.

(** A reply that carries a translation: status 200 and a body
    [{ translated: s }]. *)
Definition translation_reply (r : Server.Reply) (s : jsstring) : Prop :=
  Server.http_status r = 200
  /\ Server.json r = VObject [(lit "translated", VString s)].

(** A reply that reports an error: status 400 or 500 and a body with a
    non-empty [error] string and no [translated] field. *)
Definition error_reply (r : Server.Reply) : Prop :=
  (Server.http_status r = 400 \/ Server.http_status r = 500)
  /\ get (Server.json r) (lit "translated") = inl VUndefined
  /\ exists msg,
       get (Server.json r) (lit "error") = inl (VString msg) /\ msg <> [].

(** The body the server reads from a request of the client:
    [JSON.stringify({ text, outputLang })] of two strings. *)
Definition body_of (r : Request) : Server.Body :=
  {| Server.text := Some (req_text r);
     Server.body_outputLang := Some (req_outputLang r) |}.

(** A browser without speech recognition. *)
Definition no_speech : Environment :=
  {| has_speech_recognition := false; vite_backend_url := None |}.

(** The utterance [speak] builds in a scope, given the voices of the
    engine. *)
Definition utterance_of (scope : Scope) (vs : list Voice) : Utterance :=
  {| utter_text := translated scope;
     utter_voice := find (voice_matches (outputLang scope)) vs;
     utter_lang := outputLang scope |}.

(** What [abort()] on the object [id] does to the recognizers. *)
Definition aborted (id : nat) (h : list Recognition) : list Recognition :=
  match option_map rec_phase (nth_error h id) with
  | Some Capturing | Some Stopping => update id (with_phase Aborting) h
  | _ => h
  end.

(** The events that the recognizer [id] sends. *)
Definition sent_by (id : nat) (e : Event) : Prop :=
  match e with
  | RecStarted i | RecEnded i | RecResult i _ | RecError i _ => i = id
  | _ => False
  end.

(* ===================================================================== *)
(** ** Facts about strings and values *)
(* ===================================================================== *)

Module JSFacts.

Lemma str_eqb_eq a b : str_eqb a b = true <-> a = b.
Proof.
  unfold str_eqb. destruct (list_eq_dec N.eq_dec a b); split; congruence.
Qed.

Lemma str_eqb_refl a : str_eqb a a = true.
Proof. now apply str_eqb_eq. Qed.

Lemma str_eqb_neq a b : a <> b -> str_eqb a b = false.
Proof.
  intros H. destruct (str_eqb a b) eqn:E; [|reflexivity].
  apply str_eqb_eq in E. contradiction.
Qed.

Lemma str_eqb_false a b : str_eqb a b = false -> a <> b.
Proof.
  intros E H. apply str_eqb_eq in H. congruence.
Qed.

(** [trim_start] leaves nothing exactly when every code unit is white
    space. *)
Lemma trim_start_nil s : trim_start s = [] <-> forallb is_white_space s = true.
Proof.
  induction s as [|c s IH]; simpl.
  - split; reflexivity.
  - destruct (is_white_space c); simpl.
    + exact IH.
    + split; discriminate.
Qed.

Lemma trim_start_suffix s : exists p, s = p ++ trim_start s /\ forallb is_white_space p = true.
Proof.
  induction s as [|c s [p [Hs Hp]]]; simpl.
  - exists []. split; reflexivity.
  - destruct (is_white_space c) eqn:E.
    + exists (c :: p). simpl. rewrite E, Hp. split; [congruence | reflexivity].
    + exists []. split; reflexivity.
Qed.

Lemma forallb_rev {A} (f : A -> bool) l : forallb f (rev l) = forallb f l.
Proof.
  induction l as [|x l IH]; simpl; [reflexivity|].
  rewrite forallb_app, IH. simpl. rewrite andb_true_r. apply andb_comm.
Qed.

(** [s.trim().length > 0] fails exactly on the empty and the
    white-space-only strings. *)
Lemma trim_nil s : trim s = [] <-> forallb is_white_space s = true.
Proof.
  unfold trim, trim_end. split.
  - intros H.
    apply (f_equal (@rev code_unit)) in H.
    rewrite rev_involutive in H. simpl in H.
    pose proof (proj1 (trim_start_nil _) H) as H1. rewrite forallb_rev in H1.
    destruct (trim_start_suffix s) as [p [Hs Hp]].
    rewrite Hs, forallb_app, Hp, H1. reflexivity.
  - intros H. apply trim_start_nil in H. rewrite H. reflexivity.
Qed.

Lemma trim_blank s :
  forallb is_white_space s = true -> (0 <? length (trim s)) = false.
Proof. intros H. apply trim_nil in H. rewrite H. reflexivity. Qed.

Lemma trim_not_blank s :
  forallb is_white_space s = false -> (0 <? length (trim s)) = true.
Proof.
  intros H. destruct (trim s) eqn:E; [|reflexivity].
  apply trim_nil in E. congruence.
Qed.

End JSFacts.

Import JSFacts.

(* ===================================================================== *)
(** ** Equality of worlds *)
(* ===================================================================== *)

(** Reading a field through a chain of updates. *)
Ltac project :=
  cbn
    [react recognitionRef lastResultRef lang_deps lang_cleanup pair_deps
     debounce_id env heap synth clock timers inflight calls
     set_react set_recognitionRef set_lastResultRef set_lang_effect
     set_pair_deps set_debounce_id set_heap set_synth set_clock set_timers
     set_inflight set_calls].

Lemma world_ext (a b : World) :
  react a = react b ->
  recognitionRef a = recognitionRef b ->
  lastResultRef a = lastResultRef b ->
  lang_deps a = lang_deps b ->
  lang_cleanup a = lang_cleanup b ->
  pair_deps a = pair_deps b ->
  debounce_id a = debounce_id b ->
  env a = env b ->
  heap a = heap b ->
  synth a = synth b ->
  clock a = clock b ->
  timers a = timers b ->
  inflight a = inflight b ->
  calls a = calls b ->
  a = b.
Proof.
  destruct a, b. cbn. intros. subst. reflexivity.
Qed.

(* ===================================================================== *)
(** ** speak and clearAll *)
(* ===================================================================== *)

Lemma speak_falsy_noop (scope : Scope) (w : World) :
  to_boolean (translated scope) = false ->
  speak scope w = (inl tt, w).
Proof.
  intros H. unfold speak. rewrite H. reflexivity.
Qed.

(** C9. [speak()] with no translation result (the translated text is the
    empty string) returns at once: the world it leaves is the world it found,
    so no call on the synthesis engine is made and no state changes. *)
Theorem speak_without_translation_is_noop (scope : Scope) (w : World) :
  translated scope = str "" ->
  speak scope w = (inl tt, w)
  /\ calls (exec (speak scope) w) = calls w
  /\ synth (exec (speak scope) w) = synth w
  /\ react (exec (speak scope) w) = react w.
Proof.
  intros H.
  assert (E : speak scope w = (inl tt, w)).
  { apply speak_falsy_noop. rewrite H. reflexivity. }
  unfold exec. rewrite E. repeat split.
Qed.

Lemma speak_without_translation_witness :
  translated (react mounted) = str ""
  /\ speak (react mounted) mounted = (inl tt, mounted).
Proof.
  split; [reflexivity|].
  apply (speak_without_translation_is_noop (react mounted) mounted).
  reflexivity.
Defined.

(** With a translation the engine is called: the check above is what
    keeps it silent. *)
Example speak_with_translation :
  let scope := with_translated (str "dolor en el pecho")
                 (with_outputLang (lit "es") (react mounted)) in
  calls (exec (speak scope) mounted)
  = calls mounted
    ++ [SynthSpeak {| utter_text := str "dolor en el pecho";
                      utter_voice := Some {| voice_name := lit "Monica";
                                             voice_lang := lit "es-ES" |};
                      utter_lang := lit "es" |}].
Proof. reflexivity. Qed.

(** C10. [clearAll()] empties the transcript, the translation and
    [lastResultRef.current], and leaves everything else as it was: Status,
    the listening flag, both language selections, the recognizer, the
    synthesis engine, the timer, the pending requests and the call log. It
    does not throw. *)
Theorem clearAll_frame (w : World) :
  let w' := exec clearAll w in
  threw clearAll w = false
  /\ original (react w') = lit ""
  /\ translated (react w') = str ""
  /\ lastResultRef w' = lit ""
  /\ status (react w') = status (react w)
  /\ listening (react w') = listening (react w)
  /\ inputLang (react w') = inputLang (react w)
  /\ outputLang (react w') = outputLang (react w)
  /\ recognitionRef w' = recognitionRef w
  /\ heap w' = heap w
  /\ synth w' = synth w
  /\ timers w' = timers w
  /\ debounce_id w' = debounce_id w
  /\ clock w' = clock w
  /\ inflight w' = inflight w
  /\ calls w' = calls w
  /\ env w' = env w.
Proof.
  unfold clearAll. run_js. repeat split.
Qed.

(* ===================================================================== *)
(** ** Recognition errors and the end of a session *)
(* ===================================================================== *)

Lemma update_length {A} (f : A -> A) (l : list A) i :
  length (update i f l) = length l.
Proof.
  revert i. induction l as [|x l IH]; intros [|i]; simpl; auto.
Qed.

Lemma nth_error_update {A} (f : A -> A) (l : list A) i :
  nth_error (update i f l) i = option_map f (nth_error l i).
Proof.
  revert i. induction l as [|x l IH]; intros [|i]; simpl; auto.
Qed.

Lemma nth_error_update_other {A} (f : A -> A) (l : list A) i j :
  i <> j -> nth_error (update i f l) j = nth_error l j.
Proof.
  revert i j. induction l as [|x l IH]; intros [|i] [|j] H; simpl; auto.
  congruence.
Qed.

Lemma phase_of_set_phase (id : nat) (p q : phase) (w : World) :
  phase_of id w = Some q ->
  phase_of id (set_heap (update id (with_phase p) (heap w)) w) = Some p.
Proof.
  unfold phase_of. cbn [heap set_heap]. rewrite nth_error_update.
  destruct (nth_error (heap w) id); [reflexivity | discriminate].
Qed.

Lemma phase_of_set_phase_other (id j : nat) (p : phase) (w : World) :
  id <> j ->
  phase_of j (set_heap (update id (with_phase p) (heap w)) w) = phase_of j w.
Proof.
  intros H. unfold phase_of. cbn [heap set_heap].
  rewrite nth_error_update_other by exact H. reflexivity.
Qed.

(** What [rec.abort()] does to the object and to the log. *)
Lemma rec_abort_spec (id : nat) (w : World) :
  let w' := exec (rec_abort id) w in
  threw (rec_abort id) w = false
  /\ calls w' = calls w ++ [RecAbort id]
  /\ react w' = react w
  /\ (phase_of id w = Some Capturing -> phase_of id w' = Some Aborting).
Proof.
  unfold rec_abort, set_phase. run_js.
  change (phase_of id (set_calls (calls w ++ [RecAbort id]) w))
    with (phase_of id w).
  destruct (phase_of id w) as [[]|] eqn:P; cbn [fst snd];
    repeat split; try discriminate.
  intros _.
  apply phase_of_set_phase with (q := Capturing). exact P.
Qed.

(** C3. What [rec.onerror] does with an error event, by its kind:
    [network] sets Status to [network-error] and calls [abort()] (not
    [stop()]) on the recognizer, which takes a capturing session to
    aborting; [not-allowed] sets Status to [permission-denied] and aborts in
    the same way; any other kind, and an argument that is not an event, set
    Status to [error] and make no call. The handler never throws. *)
Theorem onerror_taxonomy (rec : nat) (w : World) (kind : jsstring) :
  let w' := exec (onerror rec (Some {| error := kind |})) w in
  threw (onerror rec (Some {| error := kind |})) w = false
  /\ (kind = lit "network" ->
      status (react w') = lit "network-error"
      /\ calls w' = calls w ++ [RecAbort rec]
      /\ (phase_of rec w = Some Capturing -> phase_of rec w' = Some Aborting))
  /\ (kind = lit "not-allowed" ->
      status (react w') = lit "permission-denied"
      /\ calls w' = calls w ++ [RecAbort rec]
      /\ (phase_of rec w = Some Capturing -> phase_of rec w' = Some Aborting))
  /\ (kind <> lit "network" -> kind <> lit "not-allowed" ->
      status (react w') = lit "error"
      /\ calls w' = calls w
      /\ heap w' = heap w)
  /\ status (react (exec (onerror rec None) w)) = lit "error".
Proof.
  assert (Hab : forall s,
    let w1 := set_react (with_status s (react w)) w in
    let w2 := exec (rec_abort rec) w1 in
    threw (rec_abort rec) w1 = false
    /\ status (react w2) = s
    /\ calls w2 = calls w ++ [RecAbort rec]
    /\ (phase_of rec w = Some Capturing -> phase_of rec w2 = Some Aborting)).
  { intros s w1 w2.
    destruct (rec_abort_spec rec w1) as (T & C & R & P).
    fold w2 in C, R, P. repeat split; auto. rewrite R. reflexivity. }
  unfold onerror; cbn [error].
  destruct (str_eqb kind (lit "network")) eqn:N;
    [|destruct (str_eqb kind (lit "not-allowed")) eqn:A].
  - apply str_eqb_eq in N. subst kind.
    destruct (Hab (lit "network-error")) as (T & S & C & P).
    unfold threw, exec in *. run_js.
    destruct (rec_abort rec _) as [[u|e] w2]; cbn [fst snd] in *;
      try discriminate.
    repeat split; auto; try discriminate; congruence.
  - apply str_eqb_eq in A. subst kind.
    destruct (Hab (lit "permission-denied")) as (T & S & C & P).
    unfold threw, exec in *. run_js.
    destruct (rec_abort rec _) as [[u|e] w2]; cbn [fst snd] in *;
      try discriminate.
    repeat split; auto; try discriminate; congruence.
  - apply str_eqb_false in N. apply str_eqb_false in A.
    run_js. repeat split; auto; contradiction.
Qed.

Lemma onerror_taxonomy_witness :
  let w := exec (run [ClickToggle; RecStarted 0]) mounted in
  let w' := exec (onerror 0 (error_event "network")) w in
  phase_of 0 w = Some Capturing
  /\ status (react w') = lit "network-error"
  /\ calls w' = calls w ++ [RecAbort 0]
  /\ phase_of 0 w' = Some Aborting.
Proof.
  intros w w'.
  destruct (onerror_taxonomy 0 w (lit "network")) as (_ & H & _).
  destruct (H eq_refl) as (S & C & P).
  split; [reflexivity|].
  split; [exact S|]. split; [exact C|]. apply P. reflexivity.
Defined.

(** [rec.onend] touches the listening flag and Status only. *)
Lemma onend_frame (w : World) :
  let w' := exec onend w in
  threw onend w = false
  /\ listening (react w') = false
  /\ original (react w') = original (react w)
  /\ translated (react w') = translated (react w)
  /\ calls w' = calls w
  /\ heap w' = heap w.
Proof.
  unfold onend. run_js. repeat split.
Qed.

(** C4, as the code has it. When a session ends the listening flag is
    cleared; Status stays [network-error] if it was [network-error], and
    from any other Status but [permission-denied] (of which nothing is said
    here) it becomes [idle]: in particular the generic [error] Status is
    replaced by [idle]. *)
Theorem onend_status (w : World) :
  status (react w) <> lit "permission-denied" ->
  let w' := exec onend w in
  listening (react w') = false
  /\ (status (react w) = lit "network-error" ->
      status (react w') = lit "network-error")
  /\ (status (react w) <> lit "network-error" ->
      status (react w') = lit "idle").
Proof.
  intros _. unfold onend. run_js. cbn [react set_react status with_status
    with_listening listening].
  split; [reflexivity|]. split; intros H.
  - rewrite H. reflexivity.
  - rewrite (str_eqb_neq _ _ H). reflexivity.
Qed.

Lemma onend_status_witness :
  let w := exec (run [ClickToggle; RecStarted 0; ClickToggle]) mounted in
  status (react w) = lit "listening"
  /\ status (react (exec onend w)) = lit "idle"
  /\ listening (react (exec onend w)) = false.
Proof.
  intros w.
  assert (P : status (react w) <> lit "permission-denied")
    by (vm_compute; discriminate).
  destruct (onend_status w P) as (L & _ & I).
  split; [reflexivity|]. split; [|exact L].
  apply I. vm_compute. discriminate.
Defined.

(** C4, as the claim states it, fails: a session that reported a generic
    error ([no-speech]) and then ends has its [error] Status replaced by
    [idle]. *)
Lemma onend_overwrites_error :
  let w := exec (run [ClickToggle; RecStarted 0;
                      RecError 0 (error_event "no-speech")]) mounted in
  status (react w) = lit "error"
  /\ status (react (exec (step (RecEnded 0)) w)) = lit "idle".
Proof. split; reflexivity. Qed.

(** The [permission-denied] Status is overwritten in the same way: the
    abort that [onerror] requests ends the session, and [onend] keeps
    [network-error] only. *)
Example onend_overwrites_permission_denied :
  let w := exec (run [ClickToggle; RecStarted 0;
                      RecError 0 (error_event "not-allowed")]) mounted in
  status (react w) = lit "permission-denied"
  /\ phase_of 0 w = Some Aborting
  /\ status (react (exec (step (RecEnded 0)) w)) = lit "idle".
Proof. repeat split. Qed.

(* ===================================================================== *)
(** ** The response of a translation request *)
(* ===================================================================== *)

Lemma translateText_resume_cases (o : Outcome) (w : World) :
  let w' := exec (translateText_resume o) w in
  threw (translateText_resume o) w = false
  /\ w' = set_react (with_status (status (react w'))
                      (with_translated (translated (react w')) (react w))) w
  /\ ((exists t, has_translated_field o t /\ to_boolean t = true
                 /\ translated (react w') = t
                 /\ status (react w') = lit "translated")
      \/ ((forall t, has_translated_field o t -> to_boolean t = false)
          /\ is_failure_placeholder (translated (react w'))
          /\ status (react w') = lit "error")).
Proof.
  unfold translateText_resume, is_failure_placeholder, has_translated_field.
  destruct o as [e|e|data]; run_js.
  - split; [reflexivity|]. split; [reflexivity|]. right.
    split; [|split; [right|]; reflexivity].
    intros t (props & H & _). discriminate.
  - split; [reflexivity|]. split; [reflexivity|]. right.
    split; [|split; [right|]; reflexivity].
    intros t (props & H & _). discriminate.
  - destruct data as [| |b|x|s|items|props]; cbn [get lift]; run_js;
      try (split; [reflexivity|]; split; [reflexivity|]; right;
           split; [|split; [first [left; reflexivity | right; reflexivity]
                           | reflexivity]];
           intros t (props' & H & _); discriminate).
    destruct (own_property props (lit "translated")) as [t|] eqn:P; run_js.
    + destruct (to_boolean t) eqn:T; run_js.
      * split; [reflexivity|]. split; [reflexivity|]. left. exists t.
        repeat split; auto. exists props. split; auto.
      * split; [reflexivity|]. split; [reflexivity|]. right.
        split; [|split; [left|]; reflexivity].
        intros t' (props' & H & P'). inversion H; subst props'.
        congruence.
    + split; [reflexivity|]. split; [reflexivity|]. right.
      split; [|split; [left|]; reflexivity].
      intros t' (props' & H & P'). inversion H; subst props'.
      congruence.
Qed.

(** C6, as the code has it. When the body is an object whose [translated]
    field is truthy (a non-empty string), that value is published and Status
    becomes [translated]. In every other case (no such field, a field that
    is falsy such as the empty string, a body that is not an object, a body
    that is not JSON, a failed transport) one of the two failure
    placeholders is published and Status becomes [error]. Nothing but the
    translation and Status changes, and no error leaves the function. *)
Theorem translation_response (o : Outcome) (w : World) :
  let w' := exec (translateText_resume o) w in
  threw (translateText_resume o) w = false
  /\ (forall t, has_translated_field o t -> to_boolean t = true ->
        translated (react w') = t /\ status (react w') = lit "translated")
  /\ ((forall t, has_translated_field o t -> to_boolean t = false) ->
        is_failure_placeholder (translated (react w'))
        /\ status (react w') = lit "error")
  /\ original (react w') = original (react w)
  /\ calls w' = calls w.
Proof.
  intros w'.
  destruct (translateText_resume_cases o w) as (T & F & C). fold w' in F, C.
  split; [exact T|].
  assert (U : forall t1 t2, has_translated_field o t1 ->
                            has_translated_field o t2 -> t1 = t2).
  { intros t1 t2 (p1 & H1 & P1) (p2 & H2 & P2). rewrite H1 in H2.
    inversion H2; subst p2. congruence. }
  split; [|split; [|split]].
  - intros t H B. destruct C as [(t' & H' & _ & R & S) | (N & _)].
    + rewrite (U t t' H H'). split; assumption.
    + rewrite (N t H) in B. discriminate.
  - intros N. destruct C as [(t' & H' & B & _) | (_ & R & S)].
    + rewrite (N t' H') in B. discriminate.
    + split; assumption.
  - rewrite F. reflexivity.
  - rewrite F. reflexivity.
Qed.

Lemma translation_response_witness :
  let o := Parsed (VObject [(lit "translated", str "dolor en el pecho")]) in
  let w' := exec (translateText_resume o) mounted in
  translated (react w') = str "dolor en el pecho"
  /\ status (react w') = lit "translated".
Proof.
  intros o w'.
  destruct (translation_response o mounted) as (_ & H & _).
  apply (H (str "dolor en el pecho")).
  - exists [(lit "translated", str "dolor en el pecho")].
    split; reflexivity.
  - reflexivity.
Defined.

(** C6, as the claim states it, fails: a body that contains the field,
    with the empty string as its value, is treated as a failure. *)
Lemma empty_translation_is_a_failure :
  let o := Parsed (VObject [(lit "translated", str "")]) in
  let w' := exec (translateText_resume o) mounted in
  has_translated_field o (str "")
  /\ translated (react w') <> str ""
  /\ status (react w') = lit "error".
Proof.
  intros o w'. split; [|split].
  - exists [(lit "translated", str "")]. split; reflexivity.
  - vm_compute. discriminate.
  - reflexivity.
Qed.

(** Such a body is one the server itself sends: with a key set, a
    completion whose content is white space only is trimmed to the empty
    string and answered with status 200. *)
Example server_can_send_empty_translation :
  let completion :=
    VObject [(lit "choices",
      VArray [VObject [(lit "message",
        VObject [(lit "content", str "  ")])]])] in
  match Server.translate_route (Some (lit "sk-test"))
          (Some {| Server.text := Some (lit "chest pain");
                   Server.body_outputLang := Some (lit "es") |}) with
  | Server.Await _ resume =>
      resume (Parsed completion)
      = {| Server.http_status := 200;
           Server.json := VObject [(lit "translated", str "")] |}
  | Server.Answer _ => False
  end.
Proof. reflexivity. Qed.

(* ===================================================================== *)
(** ** The route without an API key *)
(* ===================================================================== *)



(** The client takes that answer for a translation. *)
Example echo_is_published :
  let body := VObject [(lit "translated",
                 str "(OPENAI_API_KEY not set on server) chest pain")] in
  let w' := exec (translateText_resume (Parsed body)) mounted in
  translated (react w') = str "(OPENAI_API_KEY not set on server) chest pain"
  /\ status (react w') = lit "translated".
Proof. split; reflexivity. Qed.

(* ===================================================================== *)
(** ** Starting while a session is running *)
(* ===================================================================== *)

Lemma update_app_l {A} (f : A -> A) (l l' : list A) i :
  i < length l -> update i f (l ++ l') = update i f l ++ l'.
Proof.
  revert i. induction l as [|x l IH]; intros [|i] H; simpl in *;
    try lia; auto.
  rewrite IH by lia. reflexivity.
Qed.




Lemma rec_start_idle (id : nat) (w : World) :
  phase_of id w = Some Inactive ->
  rec_start id w
  = (inl tt,
     set_heap (update id (with_phase Capturing) (heap w))
       (set_calls (calls w ++ [RecStart id]) w)).
Proof.
  intros H. unfold rec_start, set_phase. run_js.
  change (phase_of id (set_calls (calls w ++ [RecStart id]) w))
    with (phase_of id w).
  rewrite H. reflexivity.
Qed.

Lemma rec_abort_capturing (id : nat) (w : World) :
  phase_of id w = Some Capturing ->
  rec_abort id w
  = (inl tt,
     set_heap (update id (with_phase Aborting) (heap w))
       (set_calls (calls w ++ [RecAbort id]) w)).
Proof.
  intros H. unfold rec_abort, set_phase. run_js.
  change (phase_of id (set_calls (calls w ++ [RecAbort id]) w))
    with (phase_of id w).
  rewrite H. reflexivity.
Qed.

Lemma createRecognition_supported (scope : Scope) (lang : jsstring) (w : World) :
  has_speech_recognition (env w) = true ->
  createRecognition scope lang w
  = (inl (Some (length (heap w))),
     set_heap (heap w ++
       [{| rec_continuous := true; rec_interimResults := true;
           rec_lang := lang; rec_maxAlternatives := 1%N;
           rec_closure := Some (original scope);
           rec_phase := Inactive |}]) w).
Proof.
  intros H. unfold createRecognition, hasSpeechRecognition. run_js.
  rewrite H. reflexivity.
Qed.



Lemma total_ret {A} (a : A) : total (ret a).
Proof. intros w. reflexivity. Qed.

Lemma total_gets {A} (f : World -> A) : total (gets f).
Proof. intros w. reflexivity. Qed.

Lemma total_modify (f : World -> World) : total (modify f).
Proof. intros w. reflexivity. Qed.

Lemma total_bind {A B} (m : M A) (k : A -> M B) :
  total m -> (forall a, total (k a)) -> total (bind m k).
Proof.
  intros Hm Hk w. specialize (Hm w). unfold threw, bind in *.
  destruct (m w) as [[a|e] w1]; cbn [fst] in *; [|discriminate].
  apply Hk.
Qed.

(** A [try] whose [catch] never throws never throws. *)
Lemma total_try_catch {A} (body : M A) (handler : exn -> M A) :
  (forall e, total (handler e)) -> total (try_catch body handler).
Proof.
  intros Hh w. unfold threw, try_catch.
  destruct (body w) as [[a|e] w1]; [reflexivity|]. apply Hh.
Qed.

Lemma total_try_ignore (body : M unit) : total (try_ignore body).
Proof. apply total_try_catch. intros e. apply total_ret. Qed.

Lemma total_setStatus (s : jsstring) : total (setStatus s).
Proof. apply total_modify. Qed.

Lemma total_createRecognition (scope : Scope) (lang : jsstring) :
  total (createRecognition scope lang).
Proof.
  intros w. unfold threw, createRecognition, hasSpeechRecognition. run_js.
  destruct (has_speech_recognition (env w)); reflexivity.
Qed.

Ltac totality :=
  repeat first
    [ apply total_ret | apply total_gets | apply total_modify
    | apply total_setStatus | apply total_try_ignore
    | apply total_createRecognition
    | apply total_try_catch; intros ?
    | apply total_bind; [|intros ?]
    | match goal with
      | |- total (if ?b then _ else _) => destruct b
      | |- total (match ?x with _ => _ end) => destruct x
      end ].

Lemma total_toggle (scope : Scope) : total (toggle scope).
Proof. unfold toggle. totality. Qed.

(** No path through [toggleListening] lets an error out, whatever the
    recognizer does. *)
Lemma toggleListening_never_throws (scope : Scope) (w : World) :
  threw (toggleListening scope) w = false.
Proof.
  revert w. change (total (toggleListening scope)).
  unfold toggleListening. totality; apply total_toggle.
Qed.


(* ===================================================================== *)
(** ** Responses that arrive out of order *)
(* ===================================================================== *)

Lemma commit_settled (w : World) :
  settled w -> commit w = (inl tt, w).
Proof.
  intros [L P]. unfold commit. run_js. rewrite L, P.
  destruct (debounce_id w); reflexivity.
Qed.

(** The continuation of [translateText] writes the translation and Status,
    and what it writes is decided by the response alone: it does not look at
    the state, nor at the request it belongs to. *)
Lemma translateText_resume_shape (o : Outcome) :
  exists t s, forall w,
    translateText_resume o w
    = (inl tt, set_react (with_status s (with_translated t (react w))) w).
Proof.
  unfold translateText_resume.
  destruct o as [e|e|data]; run_js.
  - eexists; eexists; intros w; reflexivity.
  - eexists; eexists; intros w; reflexivity.
  - destruct data as [| |b|x|s|items|props]; cbn [get lift]; run_js;
      try (eexists; eexists; intros w; reflexivity).
    destruct (own_property props (lit "translated")) as [t|]; run_js;
      [destruct (to_boolean t)|]; run_js;
      eexists; eexists; intros w; reflexivity.
Qed.

Lemma existsb_filter_other (id1 id2 : nat) (l : list Request) :
  id1 <> id2 ->
  existsb (request_eqb id2) (filter (fun r => negb (request_eqb id1 r)) l)
  = existsb (request_eqb id2) l.
Proof.
  intros N. induction l as [|r l IH]; [reflexivity|].
  cbn [filter existsb].
  destruct (request_eqb id1 r) eqn:E1; cbn [negb existsb].
  - destruct (request_eqb id2 r) eqn:E2; [|exact IH].
    unfold request_eqb in E1, E2.
    apply Nat.eqb_eq in E1. apply Nat.eqb_eq in E2. congruence.
  - rewrite IH. reflexivity.
Qed.

(** One response, delivered to a settled world. *)
Lemma step_response (id : nat) (o : Outcome) (w : World) :
  settled w ->
  exists t s,
    (forall w0, translateText_resume o w0
       = (inl tt, set_react (with_status s (with_translated t (react w0))) w0))
    /\ step (Response id o) w
       = (inl tt,
          if existsb (request_eqb id) (inflight w) then
            set_react (with_status s (with_translated t (react w)))
              (set_inflight
                 (filter (fun r => negb (request_eqb id r)) (inflight w)) w)
          else w).
Proof.
  intros Hs. destruct (translateText_resume_shape o) as (t & s & E).
  exists t, s. split; [exact E|].
  unfold step, handle. run_js.
  destruct (existsb (request_eqb id) (inflight w)) eqn:F.
  - rewrite E. rewrite commit_settled; [reflexivity|].
    destruct Hs as [L P]. split; [exact L | exact P].
  - rewrite commit_settled by exact Hs. reflexivity.
Qed.

(** A response that publishes text publishes a string, whatever else it
    holds. *)
Lemma translateText_resume_text (o : Outcome) :
  text_outcome o ->
  exists t s, forall w,
    translateText_resume o w
    = (inl tt,
       set_react (with_status s (with_translated (VString t) (react w))) w).
Proof.
  intros T. unfold translateText_resume.
  destruct o as [e|e|data]; run_js.
  - eexists; eexists; intros w; reflexivity.
  - eexists; eexists; intros w; reflexivity.
  - destruct data as [| |b|x|s|items|props]; cbn [get lift]; run_js;
      try (eexists; eexists; intros w; reflexivity).
    destruct (own_property props (lit "translated")) as [t|] eqn:P; run_js.
    + destruct (T t) as [x X].
      { exists props. split; [reflexivity | exact P]. }
      subst t. destruct (to_boolean (VString x)); run_js;
        eexists; eexists; intros w; reflexivity.
    + eexists; eexists; intros w; reflexivity.
Qed.

Lemma render_text (w : World) : shows_text w -> render w = (inl tt, w).
Proof.
  intros [s E]. unfold render, jsx. run_js. rewrite E.
  cbn [valid_child negb]. rewrite andb_false_r. reflexivity.
Qed.

(** One response that publishes text, delivered to a settled world that
    shows text: the render goes through. *)
Lemma turn_response (id : nat) (o : Outcome) (w : World) :
  settled w ->
  shows_text w ->
  text_outcome o ->
  exists t s,
    (forall w0, translateText_resume o w0
       = (inl tt,
          set_react (with_status s (with_translated (VString t) (react w0)))
            w0))
    /\ turn (Response id o) w
       = (inl tt,
          if existsb (request_eqb id) (inflight w) then
            set_react (with_status s (with_translated (VString t) (react w)))
              (set_inflight
                 (filter (fun r => negb (request_eqb id r)) (inflight w)) w)
          else w).
Proof.
  intros Hs Ht To. destruct (translateText_resume_text o To) as (t & s & E).
  exists t, s. split; [exact E|].
  unfold turn, handle. run_js.
  destruct (existsb (request_eqb id) (inflight w)) eqn:F.
  - rewrite E. rewrite render_text by (exists t; reflexivity).
    rewrite commit_settled; [reflexivity|].
    destruct Hs as [L P]. split; [exact L | exact P].
  - rewrite render_text by exact Ht.
    rewrite commit_settled by exact Hs. reflexivity.
Qed.

(** C1, as the code has it. Responses are applied in the order in which
    they arrive, with no check of the pair they were issued for. For
    responses that publish text (a [translated] field, if there is one, is a
    string): after two responses are processed, handler, render and effects,
    nothing has been thrown, and the translation and Status are those of the
    response that arrived last, exactly as if the earlier one had never
    come; the transcript and the output language are not touched. So the
    result is the one for the latest pair when its response arrives last. *)
Theorem last_response_wins (w : World) (id1 id2 : nat) (o1 o2 : Outcome) :
  settled w ->
  shows_text w ->
  id1 <> id2 ->
  in_flight id2 w ->
  text_outcome o1 ->
  text_outcome o2 ->
  let w' := exec (turns [Response id1 o1; Response id2 o2]) w in
  let only := exec (translateText_resume o2) w in
  threw (turns [Response id1 o1; Response id2 o2]) w = false
  /\ translated (react w') = translated (react only)
  /\ status (react w') = status (react only)
  /\ original (react w') = original (react w)
  /\ outputLang (react w') = outputLang (react w).
Proof.
  intros Hs Ht N F T1 T2 w' only. subst w' only.
  destruct (turn_response id1 o1 w Hs Ht T1) as (t1 & s1 & E1 & S1).
  set (w1 := snd (turn (Response id1 o1) w)).
  assert (Hw1 : turn (Response id1 o1) w = (inl tt, w1))
    by (unfold w1; rewrite S1; reflexivity).
  assert (Hs1 : settled w1).
  { unfold w1. rewrite S1. cbn [snd].
    destruct (existsb (request_eqb id1) (inflight w)); [|exact Hs].
    destruct Hs as [L P]. split; [exact L | exact P]. }
  assert (Ht1 : shows_text w1).
  { unfold w1. rewrite S1. cbn [snd].
    destruct (existsb (request_eqb id1) (inflight w)); [|exact Ht].
    exists t1. reflexivity. }
  assert (F1 : existsb (request_eqb id2) (inflight w1) = true).
  { unfold w1. rewrite S1. cbn [snd].
    destruct (existsb (request_eqb id1) (inflight w)); [|exact F].
    cbn [inflight set_react set_inflight].
    rewrite existsb_filter_other by exact N. exact F. }
  assert (R1 : original (react w1) = original (react w)
               /\ outputLang (react w1) = outputLang (react w)).
  { unfold w1. rewrite S1. cbn [snd].
    destruct (existsb (request_eqb id1) (inflight w)); split; reflexivity. }
  destruct (turn_response id2 o2 w1 Hs1 Ht1 T2) as (t2 & s2 & E2 & S2).
  rewrite F1 in S2.
  unfold exec, threw, turns. unfold bind at 1 3 5 7 9. rewrite Hw1.
  unfold bind. rewrite S2. rewrite E2. cbn [fst snd]. project.
  cbn [translated status original outputLang with_status with_translated].
  destruct R1 as [Ro Rl]. repeat split; assumption.
Qed.

Lemma last_response_wins_witness :
  let w := exec (run two_dispatches) mounted in
  let w' := exec (turns [Response 6 (translation_of "dolor en el pecho");
                         Response 9 (translation_of "dolor de cabeza")]) w in
  map summary (inflight w)
  = [(6, lit "chest pain", lit "es"); (9, lit "headache", lit "es")]
  /\ translated (react w') = str "dolor de cabeza"
  /\ status (react w') = lit "translated".
Proof.
  intros w w'.
  assert (Hs : settled w) by (split; vm_compute; reflexivity).
  assert (Ht : shows_text w) by (exists (lit ""); vm_compute; reflexivity).
  assert (F : in_flight 9 w) by (vm_compute; reflexivity).
  assert (T : forall s, text_outcome (translation_of s)).
  { intros s t (props & E & P). inversion E; subst props.
    cbn in P. inversion P. eexists. reflexivity. }
  destruct (last_response_wins w 6 9 (translation_of "dolor en el pecho")
              (translation_of "dolor de cabeza") Hs Ht
              ltac:(discriminate) F (T _) (T _)) as (_ & Tr & S & _).
  split; [vm_compute; reflexivity|].
  split; [exact Tr | exact S].
Defined.

(** A response whose translation is an object is stored like any other,
    and the render that follows throws: [{translated || ...}] is not a
    valid child. *)
Example object_translation_breaks_render :
  let w := exec (run two_dispatches) mounted in
  let o := Parsed (VObject [(lit "translated",
                            VObject [(lit "text", str "x")])]) in
  threw (turn (Response 6 o)) w = true
  /\ status (react (exec (turn (Response 6 o)) w)) = lit "translated".
Proof. vm_compute. split; reflexivity. Qed.

(** C1, as the claim states it, fails. Two requests are sent, the first
    for "chest pain" and the second for "headache"; the response to the
    second arrives first and is published; the response to the first then
    arrives and replaces it, while the transcript is still "headache". *)
Lemma stale_response_overwrites :
  let w := exec (run two_dispatches) mounted in
  let w1 := exec (run [Response 9 (translation_of "dolor de cabeza")]) w in
  let w2 := exec (run [Response 6 (translation_of "dolor en el pecho")]) w1 in
  map summary (fetches (calls w))
  = [(6, lit "chest pain", lit "es"); (9, lit "headache", lit "es")]
  /\ original (react w) = lit "headache"
  /\ translated (react w1) = str "dolor de cabeza"
  /\ original (react w2) = lit "headache"
  /\ outputLang (react w2) = lit "es"
  /\ translated (react w2) = str "dolor en el pecho".
Proof. vm_compute. repeat split. Qed.

(* ===================================================================== *)
(** ** The debounce *)
(* ===================================================================== *)

Lemma settled_pair_deps (w : World) :
  settled w -> pair_deps w = Some (pair_of w).
Proof.
  intros [_ P]. unfold pair_changed in P.
  destruct (pair_deps w) as [[o l]|]; [|discriminate].
  apply negb_false_iff, andb_true_iff in P. destruct P as [Po Pl].
  apply str_eqb_eq in Po. apply str_eqb_eq in Pl. unfold pair_of. congruence.
Qed.

(** The render after a change of the pair, with [inputLang] as it was:
    the cleanup clears the timer of the previous run, which was the only one
    pending, and a new timer is armed for the new state. *)
Lemma commit_rearms (w : World) :
  lang_changed w = false ->
  pair_changed w = true ->
  tidy w ->
  exists id cs,
    fetches cs = []
    /\ (forall old, debounce_id w = Some old -> In (ClearTimeout old) cs)
    /\ commit w
       = (inl tt,
          set_debounce_id (Some id)
            (set_pair_deps (Some (pair_of w))
               (set_timers [{| timer_id := id; deadline := clock w + 1000;
                               timer_scope := react w |}]
                  (set_calls (calls w ++ cs) w)))).
Proof.
  intros L P T. unfold commit. run_js. rewrite L, P. cbn [andb].
  unfold debounce_cleanup, debounce_effect.
  destruct (debounce_id w) as [old|] eqn:D.
  - exists (length (calls w ++ [ClearTimeout old])),
      [ClearTimeout old; SetTimeout 1000].
    split; [reflexivity|]. split.
    { intros o E. inversion E; subst o. left. reflexivity. }
    run_js. f_equal. apply world_ext; project; try reflexivity.
    + destruct T as [T | (t & T & I)]; rewrite T; [reflexivity|].
      rewrite D in I. inversion I as [J]. cbn [filter].
      rewrite Nat.eqb_refl. reflexivity.
    + rewrite <- app_assoc. reflexivity.
  - exists (length (calls w)), [SetTimeout 1000].
    split; [reflexivity|]. split; [discriminate|].
    run_js. f_equal. apply world_ext; project; try reflexivity.
    destruct T as [T | (t & T & I)]; [rewrite T; reflexivity | congruence].
Qed.

Ltac fields :=
  project;
  cbn [listening original translated inputLang outputLang status
       with_listening with_original with_translated with_inputLang
       with_outputLang with_status fst snd].

Lemma fetches_app (a b : list Call) : fetches (a ++ b) = fetches a ++ fetches b.
Proof. unfold fetches. apply flat_map_app. Qed.

Lemma pair_changed_iff (w : World) (d : jsstring * jsstring) :
  pair_deps w = Some d ->
  pair_changed w = if str_eqb (fst d) (original (react w))
                      && str_eqb (snd d) (outputLang (react w))
                   then false else true.
Proof.
  intros E. unfold pair_changed. rewrite E. destruct d as [o l]. cbn [fst snd].
  destruct (str_eqb o _ && str_eqb l _); reflexivity.
Qed.

Lemma armed_tidy (w : World) : armed w -> tidy w.
Proof.
  intros (id & T & D). right. eexists. split; [exact T | exact D].
Qed.

Lemma change_arms (p : jsstring * jsstring) (w : World) :
  settled w -> tidy w -> p <> pair_of w ->
  exists w',
    change p w = (inl tt, w')
    /\ settled w' /\ pair_of w' = p /\ armed w'
    /\ fetches (calls w') = fetches (calls w)
    /\ inflight w' = inflight w /\ clock w' = clock w.
Proof.
  intros Hs T N. pose proof (settled_pair_deps w Hs) as D.
  destruct Hs as [L P].
  assert (E : change p w = commit (with_pair p w)).
  { unfold change. run_js. reflexivity. }
  destruct (commit_rearms (with_pair p w)) as (id & cs & Fc & _ & C).
  - exact L.
  - rewrite (pair_changed_iff (with_pair p w) (pair_of w) D).
    destruct p as [o l]. unfold with_pair, pair_of. fields.
    destruct (str_eqb (original (react w)) o) eqn:Eo; [|reflexivity].
    destruct (str_eqb (outputLang (react w)) l) eqn:El; [|reflexivity].
    apply str_eqb_eq in Eo. apply str_eqb_eq in El.
    exfalso. apply N. unfold pair_of. congruence.
  - exact T.
  - rewrite E, C. eexists. split; [reflexivity|].
    destruct p as [o l]. unfold settled, pair_of, armed, lang_changed,
      pair_changed, with_pair. fields.
    rewrite !str_eqb_refl. repeat split; try reflexivity.
    + exact L.
    + exists id. split; reflexivity.
    + rewrite fetches_app, Fc. apply app_nil_r.
Qed.

Lemma not_due_yet (w : World) (gap : nat) :
  gap < 1000 -> (clock w + 1000 <=? clock w + gap) = false.
Proof. intros G. apply Nat.leb_gt. lia. Qed.

Lemma due_by_now (w : World) (ms : nat) :
  1000 <= ms -> (clock w + 1000 <=? clock w + ms) = true.
Proof. intros G. apply Nat.leb_le. lia. Qed.

Lemma elapse_short (gap : nat) (w : World) :
  settled w -> armed w -> gap < 1000 ->
  step (Elapse gap) w = (inl tt, set_clock (clock w + gap) w).
Proof.
  intros Hs (id & T & D) G. unfold step, handle. run_js. project.
  rewrite T. unfold due. cbn [filter deadline negb].
  rewrite (not_due_yet w gap G). cbn [negb firing_order fold_left fire].
  run_js.
  replace (set_timers _ _) with (set_clock (clock w + gap) w)
    by (apply world_ext; project; try reflexivity; exact T).
  apply commit_settled. exact Hs.
Qed.

Lemma last_cons_default {A} (x d : A) (l : list A) :
  last (x :: l) d = last l x.
Proof.
  revert x d. induction l as [|y l IH]; intros x d; [reflexivity|].
  change (last (x :: y :: l) d) with (last (y :: l) d).
  rewrite (IH y d), (IH y x). reflexivity.
Qed.

(** During a burst nothing is sent, and at its end the timer armed by the
    last change is the only one pending, with a full second left: those
    armed before it were cleared. *)
Lemma burst_defers (cs : list (nat * (jsstring * jsstring))) :
  forall w,
    settled w -> armed w -> within_window (pair_of w) cs ->
    exists w',
      burst cs w = (inl tt, w')
      /\ settled w' /\ armed w'
      /\ pair_of w' = last (map snd cs) (pair_of w)
      /\ fetches (calls w') = fetches (calls w).
Proof.
  induction cs as [|[gap p] cs IH]; intros w Hs A W.
  - exists w. split; [reflexivity|]. split; [exact Hs|]. split; [exact A|].
    split; reflexivity.
  - destruct W as (G & N & W).
    cbn [burst]. unfold bind at 1. rewrite (elapse_short gap w Hs A G).
    set (w1 := set_clock (clock w + gap) w).
    assert (Hs1 : settled w1) by exact Hs.
    assert (T1 : tidy w1) by exact (armed_tidy w A).
    destruct (change_arms p w1 Hs1 T1 N) as (w2 & E2 & Hs2 & P2 & A2 & F2 & _).
    unfold bind at 1. rewrite E2.
    rewrite <- P2 in W.
    destruct (IH w2 Hs2 A2 W) as (w3 & E3 & Hs3 & A3 & P3 & F3).
    exists w3. split; [exact E3|]. split; [exact Hs3|]. split; [exact A3|].
    split.
    + rewrite P3, P2. cbn [map snd]. symmetry. apply last_cons_default.
    + rewrite F3, F2. reflexivity.
Qed.

(** The timer fires: the pair of the render that armed it is sent, unless
    its transcript is blank. *)
Lemma elapse_fires (ms : nat) (w : World) :
  settled w -> armed w -> 1000 <= ms ->
  exists w',
    step (Elapse ms) w = (inl tt, w')
    /\ timers w' = []
    /\ pair_of w' = pair_of w
    /\ (forallb is_white_space (original (react w)) = true ->
        fetches (calls w') = fetches (calls w)
        /\ inflight w' = inflight w
        /\ status (react w') = status (react w))
    /\ (forallb is_white_space (original (react w)) = false ->
        exists r,
          fetches (calls w') = fetches (calls w) ++ [r]
          /\ inflight w' = inflight w ++ [r]
          /\ req_text r = original (react w)
          /\ req_outputLang r = outputLang (react w)
          /\ status (react w') = lit "translating").
Proof.
  intros Hs (id & T & D) G. unfold step, handle. run_js. project.
  rewrite T. unfold due. cbn [filter deadline negb].
  rewrite (due_by_now w ms G).
  cbn [negb firing_order fold_left insert_by_deadline fire timer_scope].
  unfold debounce_callback.
  destruct (forallb is_white_space (original (react w))) eqn:B.
  - rewrite (trim_blank _ B). run_js.
    rewrite commit_settled by exact Hs.
    eexists. split; [reflexivity|]. project.
    repeat split; try reflexivity. discriminate.
  - rewrite (trim_not_blank _ B). unfold translateText. run_js.
    rewrite commit_settled by exact Hs.
    eexists. split; [reflexivity|]. fields.
    split; [reflexivity|]. split; [reflexivity|].
    split; [discriminate|]. intros _.
    eexists. rewrite fetches_app. cbn [fetches flat_map app].
    repeat split; reflexivity.
Qed.

(** C5. A burst of changes of the pair (transcript, output language), each
    less than a second after the one before, followed by a second or more of
    quiet, starting with no timer pending but the one of the last render:
    every change clears the timer of the render before it with
    [clearTimeout] and arms a new one of 1000 ms, so nothing is sent during
    the burst, and when the one timer left fires exactly one request is
    sent, for the last pair of the burst, and no timer stays pending; if the
    transcript of that pair is empty or white space only, nothing is sent at
    all. Timers are independent: one that was not cleared would fire too,
    see [uncleared_timers_all_fire]. *)
Theorem debounce_dispatches_last_pair
    (w : World) (p : jsstring * jsstring)
    (cs : list (nat * (jsstring * jsstring))) (ms : nat) :
  settled w ->
  tidy w ->
  p <> pair_of w ->
  within_window p cs ->
  1000 <= ms ->
  let m := (change p;; burst cs;; step (Elapse ms))%js in
  let final := last (map snd cs) p in
  let w' := exec m w in
  threw m w = false
  /\ pair_of w' = final
  /\ timers w' = []
  /\ (forallb is_white_space (fst final) = true ->
      fetches (calls w') = fetches (calls w))
  /\ (forallb is_white_space (fst final) = false ->
      exists r,
        fetches (calls w') = fetches (calls w) ++ [r]
        /\ req_text r = fst final
        /\ req_outputLang r = snd final).
Proof.
  intros Hs Ht N W G m final w'. subst m final w'.
  destruct (change_arms p w Hs Ht N) as (w1 & E1 & Hs1 & P1 & A1 & F1 & _).
  rewrite <- P1 in W.
  destruct (burst_defers cs w1 Hs1 A1 W) as (w2 & E2 & Hs2 & A2 & P2 & F2).
  destruct (elapse_fires ms w2 Hs2 A2 G) as (w3 & E3 & T3 & P3 & B3 & S3).
  assert (E : (change p;; burst cs;; step (Elapse ms))%js w = (inl tt, w3)).
  { unfold bind. rewrite E1, E2. exact E3. }
  unfold exec, threw. rewrite E. cbn [fst snd].
  assert (Pf : pair_of w2 = last (map snd cs) p) by (rewrite P2, P1; reflexivity).
  assert (Po : original (react w2) = fst (last (map snd cs) p))
    by (rewrite <- Pf; reflexivity).
  assert (Pl : outputLang (react w2) = snd (last (map snd cs) p))
    by (rewrite <- Pf; reflexivity).
  split; [reflexivity|]. split; [congruence|]. split; [exact T3|].
  rewrite <- Po, <- Pl. split.
  - intros B. destruct (B3 B) as (F & _). rewrite F, F2, F1. reflexivity.
  - intros B. destruct (S3 B) as (r & F & _ & Rt & Rl & _).
    exists r. rewrite F, F2, F1. repeat split; assumption.
Qed.

Lemma debounce_witness :
  let m := (change (lit "ch", lit "bn");; burst typing_burst;;
            step (Elapse 1000))%js in
  exists r,
    fetches (calls (exec m mounted)) = fetches (calls mounted) ++ [r]
    /\ req_text r = lit "chest pain"
    /\ req_outputLang r = lit "es".
Proof.
  intros m.
  assert (Hs : settled mounted) by (split; vm_compute; reflexivity).
  assert (Ht : tidy mounted).
  { right. eexists. split; vm_compute; reflexivity. }
  assert (N : (lit "ch", lit "bn") <> pair_of mounted)
    by (vm_compute; discriminate).
  assert (W : within_window (lit "ch", lit "bn") typing_burst).
  { cbn [within_window typing_burst].
    repeat split; try lia; vm_compute; discriminate. }
  destruct (debounce_dispatches_last_pair mounted (lit "ch", lit "bn")
              typing_burst 1000 Hs Ht N W (le_n 1000))
    as (_ & _ & _ & _ & H).
  apply H. vm_compute. reflexivity.
Defined.

(** Timers do not replace one another. When the effect runs twice and the
    cleanup between the two runs is left out, both timers are pending and
    both fire, each with the transcript of its own render: two requests are
    sent where the component, which clears the first, sends one. *)
Example uncleared_timers_all_fire :
  let s1 := with_original (lit "chest") (react mounted) in
  let s2 := with_original (lit "chest pain") (react mounted) in
  let twice := (debounce_effect s1;; debounce_effect s2;;
                handle (Elapse 1000))%js in
  let cleared := (id <- debounce_effect s1;; debounce_cleanup id;;
                  debounce_effect s2;; handle (Elapse 1000))%js in
  map req_text (fetches (calls (exec twice (set_timers [] mounted))))
  = [lit "chest"; lit "chest pain"]
  /\ map req_text (fetches (calls (exec cleared (set_timers [] mounted))))
     = [lit "chest pain"].
Proof. vm_compute. split; reflexivity. Qed.

(** The scenarios of the empty transcript: the timer armed at mount fires
    and sends nothing, and so does the one armed by [clearAll]. *)
Example empty_transcript_never_dispatches :
  fetches (calls (exec (run [Elapse 1000; Elapse 5000]) mounted)) = []
  /\ fetches (calls (exec (run [ClickToggle; RecStarted 0;
       RecResult 0 {| resultIndex := 0;
                      results := [interim_result "chest"] |};
       Elapse 400; ClickClear; Elapse 1000]) mounted)) = [].
Proof. vm_compute. split; reflexivity. Qed.

(* ===================================================================== *)
(** ** The transcript *)
(* ===================================================================== *)

(** What [onresult] writes is computed from the [original] of its scope
    and the event: the transcript in the state when the event arrives plays
    no part. *)
Lemma onresult_writes (o : jsstring) (ev : ResultEvent) (w : World) :
  let w' := exec (onresult o ev) w in
  original (react w')
  = trim (o ++ lit " " ++ fst (collect ev) ++ lit " " ++ snd (collect ev))
  /\ lastResultRef w' = original (react w').
Proof.
  unfold onresult. destruct (collect ev) as [final interim]. run_js.
  split; reflexivity.
Qed.

(** The handlers of a recognizer keep the scope they were created in: a
    result event does not touch the heap. *)
Lemma result_keeps_closure (id : nat) (ev : ResultEvent) (w : World) :
  heap (exec (handle (RecResult id ev)) w) = heap w.
Proof.
  unfold handle, deliver, onresult. run_js.
  destruct (closure_of id w) as [o|]; [|reflexivity].
  destruct (collect ev) as [final interim]. run_js. reflexivity.
Qed.

(** Reading the transcript of the moment instead would not give the
    concatenation of the final texts either, since interim text is written
    into the same variable: "hel" and then "hello" would give "hel hello". *)
Example live_scope_would_keep_interims :
  let e1 := {| resultIndex := 0; results := [interim_result "hel"] |} in
  let e2 := {| resultIndex := 0; results := [final_result "hello"] |} in
  let w1 := exec (onresult (original (react mounted)) e1) mounted in
  let w2 := exec (onresult (original (react w1)) e2) w1 in
  original (react w2) = lit "hel hello".
Proof. vm_compute. reflexivity. Qed.

(** C2 fails on the code. The recognizer created at mount closes over the
    empty transcript of the first render, so each result event overwrites
    the transcript with the text of that event alone: after the two final
    results "hello" and "world" the transcript is "world", not
    "hello world", and after "hello" was final the interim "wor" had
    replaced it. *)
Theorem transcript_forgets_earlier_finals :
  closure_of 0 mounted = Some (lit "")
  /\ original (react (exec (run (firstn 4 dictation)) mounted)) = lit "hello"
  /\ original (react (exec (run (firstn 5 dictation)) mounted)) = lit "wor"
  /\ original (react (exec (run dictation) mounted)) = lit "world"
  /\ lastResultRef (exec (run dictation) mounted) = lit "world"
  /\ closure_of 0 (exec (run dictation) mounted) = Some (lit "").
Proof. vm_compute. repeat split. Qed.

(* ===================================================================== *)
(** ** Handlers and effects complete *)
(* ===================================================================== *)

Ltac handlers :=
  unfold debounce_callback, onstart, onend, onresult, onerror, clearAll, onChange_inputLang,
    onChange_outputLang, translateText, translateText_resume,
    debounce_callback, debounce_effect, debounce_cleanup, lang_effect,
    lang_effect_cleanup, remove_handlers, deliver, speak, synth_cancel,
    synth_speak, rec_abort, rec_stop, set_phase, call, setListening,
    setOriginal, setTranslated, setInputLang, setOutputLang, setStatus,
    setStatus_fn, try_ignore.

Ltac totality' :=
  repeat first
    [ apply total_ret | apply total_gets | apply total_modify
    | apply total_createRecognition | apply total_toggle
    | match goal with
      | |- total (try_catch _ _) => apply total_try_catch; intros ?
      | |- total (bind _ _) => apply total_bind; [|intros ?]
      | |- total (let (_, _) := ?x in _) => destruct x
      | |- total (if ?b then _ else _) => destruct b
      | |- total (match ?x with _ => _ end) => destruct x
      end ].

Lemma total_commit : total commit.
Proof. unfold commit. handlers. totality'. Qed.

Lemma total_fire (ts : list Timer) : total (fire ts).
Proof.
  induction ts as [|t ts IH]; cbn [fire]; [apply total_ret|].
  apply total_bind; [|intros _; exact IH]. handlers. totality'.
Qed.

Lemma total_handle (e : Event) : total (handle e).
Proof.
  destruct e; unfold handle; handlers; totality'.
  all: try apply total_fire.
  all: try (intros w; apply toggleListening_never_throws).
Qed.

Lemma total_step (e : Event) : total (step e).
Proof.
  unfold step. apply total_bind; [apply total_handle | intros _; apply total_commit].
Qed.

Lemma exec_seq {B} (m : M unit) (k : M B) (w : World) :
  total m -> exec (m;; k) w = exec k (exec m w).
Proof.
  intros H. specialize (H w). unfold exec, threw, bind in *.
  destruct (m w) as [[u|e] w1]; cbn [fst snd] in *; [reflexivity|discriminate].
Qed.

Lemma exec_step (e : Event) (w : World) :
  exec (step e) w = exec commit (exec (handle e) w).
Proof. unfold step. apply exec_seq. apply total_handle. Qed.

(* ===================================================================== *)
(** ** What a handler leaves alone *)
(* ===================================================================== *)

Section Preserves.

Context {T : Type} (v : World -> T).

Lemma preserves_ret {A} (a : A) : preserves v (ret a).
Proof. intros w. reflexivity. Qed.

Lemma preserves_throw {A} (e : exn) : preserves v (@throw A e).
Proof. intros w. reflexivity. Qed.

Lemma preserves_gets {A} (f : World -> A) : preserves v (gets f).
Proof. intros w. reflexivity. Qed.

Lemma preserves_modify (f : World -> World) :
  (forall w, v (f w) = v w) -> preserves v (modify f).
Proof. intros H w. apply H. Qed.

Lemma preserves_bind {A B} (m : M A) (k : A -> M B) :
  preserves v m -> (forall a, preserves v (k a)) -> preserves v (bind m k).
Proof.
  intros Hm Hk w. specialize (Hm w). unfold exec, bind in *.
  destruct (m w) as [[a|e] w1]; cbn [snd] in *.
  - rewrite <- Hm. apply Hk.
  - exact Hm.
Qed.

Lemma preserves_try_catch {A} (body : M A) (handler : exn -> M A) :
  preserves v body -> (forall e, preserves v (handler e)) ->
  preserves v (try_catch body handler).
Proof.
  intros Hb Hh w. specialize (Hb w). unfold exec, try_catch in *.
  destruct (body w) as [[a|e] w1]; cbn [snd] in *.
  - exact Hb.
  - rewrite <- Hb. apply Hh.
Qed.

End Preserves.

Lemma preserves_fire {T} (v : World -> T) (ts : list Timer) :
  (forall scope, preserves v (debounce_callback scope)) ->
  preserves v (fire ts).
Proof.
  intros H. induction ts as [|t ts IH]; cbn [fire]; [apply preserves_ret|].
  apply preserves_bind; [apply H | intros _; exact IH].
Qed.

Ltac framing :=
  repeat first
    [ apply preserves_ret | apply preserves_gets | apply preserves_throw
    | match goal with
      | |- preserves _ (modify _) =>
          apply preserves_modify; intros ?; reflexivity
      | |- preserves _ (try_catch _ _) =>
          apply preserves_try_catch; [|intros ?]
      | |- preserves _ (bind _ _) => apply preserves_bind; [|intros ?]
      | |- preserves _ (fire _) =>
          apply preserves_fire; intros ?; handlers
      | |- preserves _ (lift ?r) => destruct r; unfold lift
      | |- preserves _ (let (_, _) := ?x in _) => destruct x
      | |- preserves _ (if ?b then _ else _) => destruct b
      | |- preserves _ (match ?x with _ => _ end) => destruct x
      end ].

Ltac recognizer_calls :=
  unfold toggleListening, toggle, method, rec_start, createRecognition,
    hasSpeechRecognition.

(** [toggleListening], on any path (start, restart, stop, no recognizer,
    no speech API), changes nothing but Status, [recognitionRef], the
    recognizers and the call log: the transcript, the translation, both
    languages and the listening flag are as before. The flag is written by
    [onstart] and [onend] only. *)
Theorem toggleListening_frame (scope : Scope) (w : World) :
  beyond_toggle (exec (toggleListening scope) w) = beyond_toggle w.
Proof.
  revert w. change (preserves beyond_toggle (toggleListening scope)).
  recognizer_calls. handlers. framing.
Qed.

(* ===================================================================== *)
(** ** No event makes the component throw *)
(* ===================================================================== *)

(** Only [clearAll] and the response of a translation request write the
    translation. *)
Lemma handle_shown (e : Event) :
  match e with
  | ClickClear | Response _ _ => True
  | _ => preserves shown (handle e)
  end.
Proof.
  destruct e; try exact I;
    unfold handle; recognizer_calls; handlers; framing.
Qed.

Lemma commit_shown : preserves shown commit.
Proof. unfold commit. handlers. recognizer_calls. handlers. framing. Qed.

Lemma handle_shows_text (e : Event) (w : World) :
  text_event e -> shows_text w -> shows_text (exec (handle e) w).
Proof.
  intros Te Hw. pose proof (handle_shown e) as P.
  assert (K : forall m : M unit, preserves shown m -> shows_text (exec m w)).
  { intros m Pm. destruct Hw as [s E]. exists s.
    specialize (Pm w). unfold shown in Pm. congruence. }
  destruct e; try (apply K; exact P).
  - exists (lit ""). reflexivity.
  - cbn [text_event] in Te.
    destruct (translateText_resume_text o Te) as (t & st & E).
    unfold handle. run_js.
    destruct (existsb (request_eqb id) (inflight w)); [|exact Hw].
    rewrite E. exists t. reflexivity.
Qed.

(** As long as the translation is text the render goes through, and a
    whole turn is the handler followed by the effects. *)
Lemma turn_text (e : Event) (w : World) :
  text_event e -> shows_text w ->
  turn e w = step e w
  /\ threw (turn e) w = false
  /\ shows_text (exec (turn e) w).
Proof.
  intros Te Hw.
  pose proof (handle_shows_text e w Te Hw) as H1.
  pose proof (total_handle e w) as Th.
  assert (E : turn e w = step e w).
  { unfold turn, step, bind, exec, threw in *.
    destruct (handle e w) as [[u|x] w1]; cbn [fst snd] in *; [|discriminate].
    rewrite (render_text w1 H1). reflexivity. }
  split; [exact E|]. split.
  - unfold threw. rewrite E. apply total_step.
  - unfold exec. rewrite E. fold (exec (step e) w). rewrite exec_step.
    destruct H1 as [s Es]. exists s.
    pose proof (commit_shown (exec (handle e) w)) as C. unfold shown in C.
    congruence.
Qed.

(** Whatever happens to the component (a click, a recognizer event in any
    state of the recognizer, a timer, a response of any shape whose
    translation, if it has one, is text), its handler, the render that
    follows and the effects of that render complete without an uncaught
    error, and what is shown as the translation is text again; the
    turn then is the handler followed by the effects. A response whose
    translation is an object is beyond this: the render after it throws,
    see [object_translation_breaks_render]. *)
Theorem no_event_throws (es : list Event) (w : World) :
  text_events es ->
  shows_text w ->
  threw (turns es) w = false
  /\ turns es w = run es w
  /\ shows_text (exec (turns es) w).
Proof.
  intros Te. revert w. induction Te as [|e es He Hes IH]; intros w Hw.
  - split; [reflexivity|]. split; [reflexivity | exact Hw].
  - destruct (turn_text e w He Hw) as (E & T & S).
    pose proof (total_step e w) as Ts.
    cbn [turns run]. unfold threw, exec, bind in *. rewrite E in *.
    destruct (step e w) as [[u|x] w1]; cbn [fst snd] in *; [|discriminate].
    destruct (IH w1 S) as (T1 & E1 & S1).
    split; [exact T1|]. split; [exact E1 | exact S1].
Qed.

Lemma no_event_throws_witness :
  let es := two_dispatches
            ++ [Response 9 (translation_of "dolor de cabeza");
                Response 6 (FetchRejected
                              {| exn_name := lit "TypeError";
                                 exn_message := lit "Failed to fetch" |});
                ClickSpeak; ClickClear] in
  threw (turns es) mounted = false
  /\ shows_text (exec (turns es) mounted).
Proof.
  intros es.
  assert (Te : text_events es).
  { repeat constructor.
    - intros t (props & E & P). inversion E; subst props.
      cbn in P. inversion P. eexists. reflexivity.
    - intros t (props & E & _). discriminate. }
  assert (Hw : shows_text mounted) by (exists (lit ""); reflexivity).
  destruct (no_event_throws es mounted Te Hw) as (T & _ & S).
  split; [exact T | exact S].
Defined.

(* ===================================================================== *)
(** ** What holds between two events *)
(* ===================================================================== *)

Lemma exec_bind {A B} (m : M A) (k : A -> M B) (w : World) :
  total m -> exists a, exec (bind m k) w = exec (k a) (exec m w).
Proof.
  intros H. specialize (H w). unfold exec, threw, bind in *.
  destruct (m w) as [[a|e] w1]; cbn [fst snd] in *; [|discriminate].
  exists a. reflexivity.
Qed.

Lemma exec_gets {A B} (f : World -> A) (k : A -> M B) (w : World) :
  exec (bind (gets f) k) w = exec (k (f w)) w.
Proof. reflexivity. Qed.

Lemma sent_call (c : Call) (w : World) :
  match c with Fetch _ => False | _ => True end ->
  sent (set_calls (calls w ++ [c]) w) = sent w.
Proof.
  intros H. unfold sent. cbn [calls set_calls]. rewrite fetches_app.
  destruct c; try contradiction; cbn; apply app_nil_r.
Qed.

Ltac framing_sent :=
  repeat first
    [ apply preserves_ret | apply preserves_gets | apply preserves_throw
    | match goal with
      | |- preserves _ (modify _) =>
          apply preserves_modify; intros ?;
          first [ reflexivity
                | cbv beta; unfold beyond_lang_effect, beyond_render;
                  rewrite sent_call by exact I; reflexivity ]
      | |- preserves _ (try_catch _ _) =>
          apply preserves_try_catch; [|intros ?]
      | |- preserves _ (bind _ _) => apply preserves_bind; [|intros ?]
      | |- preserves _ (lift ?r) => destruct r; unfold lift
      | |- preserves _ (let (_, _) := ?x in _) => destruct x
      | |- preserves _ (if ?b then _ else _) => destruct b
      | |- preserves _ (match ?x with _ => _ end) => destruct x
      end ].

(** No handler writes the dependency records of the effects. *)
Lemma handle_deps (e : Event) : preserves deps (handle e).
Proof.
  destruct e; unfold handle; recognizer_calls; handlers; framing.
Qed.

Lemma filter_all {A} (l : list A) : filter (fun _ => true) l = l.
Proof.
  induction l as [|x l IH]; [reflexivity|]. cbn [filter]. rewrite IH.
  reflexivity.
Qed.

(** A handler sets no timer and clears none: the pending timers are as
    before, less those that fired. *)
Lemma handle_timers (e : Event) (w : World) :
  exists keep, timers (exec (handle e) w) = filter keep (timers w).
Proof.
  destruct e;
    try solve [exists (fun _ => true); rewrite filter_all; revert w;
         match goal with
         | |- forall w, timers (exec ?m w) = timers w =>
             change (preserves timers m)
         end;
         unfold handle; recognizer_calls; handlers; framing].
  exists (fun t => negb (due (clock w + ms) t)).
  unfold handle. rewrite exec_seq by apply total_modify.
  rewrite !exec_gets. rewrite exec_seq by apply total_modify.
  match goal with
  | |- timers (exec (fire ?ts) ?w0) = _ =>
      assert (P : preserves timers (fire ts)) by framing;
      rewrite (P w0)
  end.
  reflexivity.
Qed.

Lemma tidy_filter (keep : Timer -> bool) (w w1 : World) :
  tidy w ->
  timers w1 = filter keep (timers w) ->
  debounce_id w1 = debounce_id w ->
  tidy w1.
Proof.
  intros [T | (t & T & D)] F I; rewrite T in F; cbn [filter] in F.
  - left. exact F.
  - destruct (keep t).
    + right. exists t. split; [exact F | congruence].
    + left. exact F.
Qed.

Lemma timer_current_filter (keep : Timer -> bool) (w w1 : World) :
  timer_current w ->
  timers w1 = filter keep (timers w) ->
  pair_deps w1 = pair_deps w ->
  timer_current w1.
Proof.
  intros Tc F P t Ht. rewrite F in Ht. apply filter_In in Ht.
  rewrite P. apply Tc. apply Ht.
Qed.

(** The transcript and [lastResultRef] are written together. *)
Lemma handle_mirror (e : Event) (w : World) :
  lastResultRef w = original (react w) ->
  lastResultRef (exec (handle e) w) = original (react (exec (handle e) w)).
Proof.
  intros H.
  assert (K : forall m : M unit, preserves transcript_pair m ->
            lastResultRef (exec m w) = original (react (exec m w))).
  { intros m P. specialize (P w). unfold transcript_pair in P.
    inversion P as [[Ho Hl]]. rewrite Ho, Hl. exact H. }
  destruct e;
    try solve [apply K; unfold handle; recognizer_calls; handlers; framing].
  - unfold handle, clearAll. run_js. reflexivity.
  - unfold handle, deliver. run_js.
    destruct (closure_of id w) as [o|]; [|exact H].
    destruct (onresult_writes o ev w) as [_ E]. exact E.
Qed.

(** The effects of a render, stage by stage. *)
Lemma commit_stages (w : World) :
  exec commit w
  = exec (if pair_changed w then
            id <- debounce_effect (react w);;
            modify (set_pair_deps
                      (Some (original (react w), outputLang (react w))));;
            modify (set_debounce_id (Some id))
          else ret tt)
      (exec (if lang_changed w then
               c <- lang_effect (react w);;
               modify (set_lang_effect (Some (inputLang (react w))) c)
             else ret tt)
         (exec (match debounce_id w with
                | Some id => if pair_changed w then debounce_cleanup id
                             else ret tt
                | None => ret tt
                end)
            (exec (if lang_changed w && lang_cleanup w
                   then lang_effect_cleanup else ret tt) w))).
Proof.
  unfold commit. rewrite !exec_gets.
  rewrite exec_seq by (handlers; totality').
  rewrite exec_seq by (handlers; totality').
  rewrite exec_seq by (handlers; totality').
  reflexivity.
Qed.

Lemma lang_cleanup_stage (b : bool) :
  preserves (fun w => (beyond_lang_effect w, lang_deps w))
    (if b then lang_effect_cleanup else ret tt).
Proof. handlers. framing_sent. Qed.

Lemma lang_effect_stage (b : bool) (scope : Scope) (d : option jsstring) :
  preserves beyond_lang_effect
    (if b then c <- lang_effect scope;; modify (set_lang_effect d c)
     else ret tt).
Proof. handlers. recognizer_calls. framing_sent. Qed.

Lemma lang_effect_deps (scope : Scope) (d : option jsstring) (w : World) :
  lang_deps (exec (c <- lang_effect scope;; modify (set_lang_effect d c)) w)
  = d.
Proof.
  unfold lang_effect, createRecognition, hasSpeechRecognition. run_js.
  destruct (has_speech_recognition (env w)) eqn:E; cbn [negb];
    cbv beta iota; rewrite ?E; reflexivity.
Qed.

(** What is left of the pending timers when the cleanup of the debounce
    effect has run, if it runs. *)
Lemma debounce_cleanup_stage (armed_id : option nat) (pc : bool) (w : World) :
  let w' := exec (match armed_id with
                  | Some id => if pc then debounce_cleanup id else ret tt
                  | None => ret tt
                  end) w in
  beyond_render w' = beyond_render w
  /\ lang_deps w' = lang_deps w
  /\ pair_deps w' = pair_deps w
  /\ debounce_id w' = debounce_id w
  /\ timers w'
     = match armed_id with
       | Some id =>
           if pc then filter (fun t => negb (timer_id t =? id)) (timers w)
           else timers w
       | None => timers w
       end.
Proof.
  destruct armed_id as [id|]; [destruct pc|]; try (repeat split; fail).
  unfold debounce_cleanup. run_js. unfold beyond_render, sent. project.
  rewrite fetches_app, app_nil_r. repeat split.
Qed.

Lemma debounce_effect_stage (scope : Scope) (d : jsstring * jsstring)
    (w : World) :
  let w' := exec (id <- debounce_effect scope;;
                  modify (set_pair_deps (Some d));;
                  modify (set_debounce_id (Some id))) w in
  beyond_render w' = beyond_render w
  /\ lang_deps w' = lang_deps w
  /\ pair_deps w' = Some d
  /\ exists id,
       debounce_id w' = Some id
       /\ timers w' = timers w ++ [{| timer_id := id;
                                      deadline := clock w + 1000;
                                      timer_scope := scope |}].
Proof.
  unfold debounce_effect. run_js. unfold beyond_render, sent. project.
  rewrite fetches_app, app_nil_r. repeat split.
  eexists. split; reflexivity.
Qed.

(** The cleanup of the debounce effect leaves no timer pending, as long
    as the only one that can be pending is the one it holds. *)
Lemma cleanup_clears (w : World) :
  tidy w ->
  match debounce_id w with
  | Some id => filter (fun t => negb (timer_id t =? id)) (timers w)
  | None => timers w
  end = [].
Proof.
  intros [T | (t & T & D)]; rewrite T.
  - destruct (debounce_id w); reflexivity.
  - rewrite D. cbn [filter]. rewrite Nat.eqb_refl. reflexivity.
Qed.

Lemma beyond_render_fields (a b : World) :
  beyond_render a = beyond_render b ->
  original (react a) = original (react b)
  /\ outputLang (react a) = outputLang (react b)
  /\ inputLang (react a) = inputLang (react b)
  /\ lastResultRef a = lastResultRef b
  /\ sent a = sent b.
Proof.
  unfold beyond_render. intros H. repeat split; congruence.
Qed.

Lemma beyond_lang_effect_fields (a b : World) :
  beyond_lang_effect a = beyond_lang_effect b ->
  beyond_render a = beyond_render b
  /\ pair_deps a = pair_deps b
  /\ debounce_id a = debounce_id b
  /\ timers a = timers b.
Proof.
  unfold beyond_lang_effect. intros H. repeat split; congruence.
Qed.

(** The effects of a render bring the dependencies of both effects up to
    date, leave pending at most the timer of the last run of the debounce
    effect, which is for the pair on record, and write neither the
    transcript, the languages, [lastResultRef] nor a request. *)
Lemma commit_establishes (w : World) :
  tidy w ->
  timer_current w ->
  let w' := exec commit w in
  settled w' /\ tidy w' /\ timer_current w'
  /\ beyond_render w' = beyond_render w.
Proof.
  intros Ti Tc w'. subst w'. rewrite commit_stages.
  set (wa := exec (if lang_changed w && lang_cleanup w
                   then lang_effect_cleanup else ret tt) w).
  pose proof (lang_cleanup_stage (lang_changed w && lang_cleanup w) w) as Ha.
  fold wa in Ha.
  assert (La : lang_deps wa = lang_deps w) by congruence.
  assert (Ha' : beyond_lang_effect wa = beyond_lang_effect w) by congruence.
  destruct (beyond_lang_effect_fields _ _ Ha') as (Ra & Pa & Ia & Ta).
  clear Ha Ha'.
  set (wb := exec (match debounce_id w with
                   | Some id => if pair_changed w then debounce_cleanup id
                                else ret tt
                   | None => ret tt
                   end) wa).
  destruct (debounce_cleanup_stage (debounce_id w) (pair_changed w) wa)
    as (Rb & Lb & Pb & Ib & Tb). fold wb in Rb, Lb, Pb, Ib, Tb.
  set (wc := exec (if lang_changed w then
                     c <- lang_effect (react w);;
                     modify (set_lang_effect (Some (inputLang (react w))) c)
                   else ret tt) wb).
  pose proof (lang_effect_stage (lang_changed w) (react w)
                (Some (inputLang (react w))) wb) as Hc.
  fold wc in Hc.
  destruct (beyond_lang_effect_fields _ _ Hc) as (Rc & Pc & Ic & Tc').
  clear Hc.
  assert (Lc : lang_deps wc = if lang_changed w
                              then Some (inputLang (react w)) else lang_deps w).
  { unfold wc. destruct (lang_changed w) eqn:E.
    - apply lang_effect_deps.
    - cbn [exec ret snd]. rewrite Lb. exact La. }
  assert (Rw : beyond_render wc = beyond_render w)
    by (rewrite Rc, Rb; exact Ra).
  assert (Pw : pair_deps wc = pair_deps w) by (rewrite Pc, Pb; exact Pa).
  assert (Iw : debounce_id wc = debounce_id w) by (rewrite Ic, Ib; exact Ia).
  assert (Tw : timers wc
               = match debounce_id w with
                 | Some id =>
                     if pair_changed w
                     then filter (fun t => negb (timer_id t =? id)) (timers w)
                     else timers w
                 | None => timers w
                 end)
    by (rewrite Tc', Tb, Ta; reflexivity).
  clearbody wc. clear wa wb Ra Pa Ia Ta La Rb Lb Pb Ib Tb Rc Pc Ic Tc'.
  destruct (beyond_render_fields _ _ Rw) as (Ro & Rl & Ri & _ & _).
  destruct (pair_changed w) eqn:Pch.
  - rewrite (cleanup_clears w Ti) in Tw.
    destruct (debounce_effect_stage (react w)
                (original (react w), outputLang (react w)) wc)
      as (Rd & Ld & Pd & id & Id & Td).
    set (wd := exec (id <- debounce_effect (react w);;
                     modify (set_pair_deps
                        (Some (original (react w), outputLang (react w))));;
                     modify (set_debounce_id (Some id))) wc)
      in *.
    rewrite Tw in Td. cbn [app] in Td.
    destruct (beyond_render_fields _ _ Rd) as (Do & Dl & Di & _ & _).
    split; [split|split; [|split]].
    + unfold lang_changed. rewrite Ld, Lc, Di, Ri.
      destruct (lang_changed w) eqn:E.
      * rewrite str_eqb_refl. reflexivity.
      * exact E.
    + unfold pair_changed. rewrite Pd, Do, Dl, Ro, Rl, !str_eqb_refl.
      reflexivity.
    + right. eexists. split; [exact Td | exact Id].
    + intros t Ht. rewrite Td in Ht. destruct Ht as [Ht|[]]. subst t.
      exact Pd.
    + rewrite Rd. exact Rw.
  - assert (Tw' : timers wc = timers w)
      by (rewrite Tw; destruct (debounce_id w); reflexivity).
    cbn [exec ret snd].
    split; [split|split; [|split]].
    + unfold lang_changed. rewrite Lc, Ri.
      destruct (lang_changed w) eqn:E.
      * rewrite str_eqb_refl. reflexivity.
      * exact E.
    + unfold pair_changed in *. rewrite Pw, Ro, Rl. exact Pch.
    + apply (tidy_filter (fun _ => true) w wc Ti);
        [rewrite filter_all; exact Tw' | exact Iw].
    + intros t Ht. rewrite Tw' in Ht. rewrite Pw. apply Tc. exact Ht.
    + exact Rw.
Qed.

Lemma handle_between_events (e : Event) (w : World) :
  tidy w -> timer_current w ->
  tidy (exec (handle e) w) /\ timer_current (exec (handle e) w).
Proof.
  intros Ti Tc. destruct (handle_timers e w) as (keep & F).
  pose proof (handle_deps e w) as D. unfold deps in D.
  split.
  - apply (tidy_filter keep w _ Ti F). congruence.
  - apply (timer_current_filter keep w _ Tc F). congruence.
Qed.

Lemma step_between_events (e : Event) (w : World) :
  between_events w -> between_events (exec (step e) w).
Proof.
  intros (Hs & Ti & Tc & Mi). rewrite exec_step.
  set (w1 := exec (handle e) w).
  destruct (handle_between_events e w Ti Tc) as (Ti1 & Tc1).
  fold w1 in Ti1, Tc1.
  assert (M1 : lastResultRef w1 = original (react w1))
    by (apply handle_mirror; exact Mi).
  destruct (commit_establishes w1 Ti1 Tc1) as (Hs2 & Ti2 & Tc2 & R2).
  destruct (beyond_render_fields _ _ R2) as (Ro & _ & _ & Rr & _).
  split; [exact Hs2|]. split; [exact Ti2|]. split; [exact Tc2|]. congruence.
Qed.

Lemma mount_between_events (e : Environment) (vs : list Voice) :
  between_events (mount e vs).
Proof.
  unfold mount.
  assert (I0 : tidy (initial e vs)) by (left; reflexivity).
  assert (T0 : timer_current (initial e vs)) by (intros t []).
  destruct (commit_establishes (initial e vs) I0 T0) as (Hs & Ti & Tc & R).
  destruct (beyond_render_fields _ _ R) as (Ro & _ & _ & Rr & _).
  split; [exact Hs|]. split; [exact Ti|]. split; [exact Tc|].
  rewrite Ro, Rr. reflexivity.
Qed.

Lemma exec_run_cons (e : Event) (es : list Event) (w : World) :
  exec (run (e :: es)) w = exec (run es) (exec (step e) w).
Proof.
  cbn [run]. apply exec_seq. apply total_step.
Qed.

Lemma run_between_events (es : list Event) :
  forall w, between_events w -> between_events (exec (run es) w).
Proof.
  induction es as [|e es IH]; intros w H; [exact H|].
  rewrite exec_run_cons. apply IH. apply step_between_events. exact H.
Qed.

Lemma reachable_between_events (w : World) :
  reachable w -> between_events w.
Proof.
  intros (e & vs & es & E). subst w.
  apply run_between_events. apply mount_between_events.
Qed.

Lemma reachable_step (e : Event) (w : World) :
  reachable w -> reachable (exec (step e) w).
Proof.
  intros (en & vs & es & E). exists en, vs, (es ++ [e]). subst w.
  generalize (mount en vs) as w0. induction es as [|x es IH]; intros w0.
  - cbn [app]. rewrite exec_run_cons. reflexivity.
  - cbn [app]. rewrite !exec_run_cons. apply IH.
Qed.

(** Whatever has happened since the component was mounted,
    [lastResultRef.current] holds the transcript: the two are written
    together by [onresult] and by [clearAll], and by nothing else. *)
Theorem lastResultRef_mirrors_transcript (w : World) :
  reachable w -> lastResultRef w = original (react w).
Proof.
  intros H. destruct (reachable_between_events w H) as (_ & _ & _ & M).
  exact M.
Qed.

Lemma lastResultRef_mirrors_witness :
  reachable (exec (run dictation) mounted)
  /\ lastResultRef (exec (run dictation) mounted)
     = original (react (exec (run dictation) mounted)).
Proof.
  assert (R : reachable (exec (run dictation) mounted))
    by (exists chrome, sample_voices, dictation; reflexivity).
  split; [exact R|].
  apply (lastResultRef_mirrors_transcript _ R).
Defined.

Lemma handle_sent (e : Event) :
  match e with Elapse _ => True | _ => preserves sent (handle e) end.
Proof.
  destruct e; try exact I;
    unfold handle; recognizer_calls; handlers; framing_sent.
Qed.

Lemma handle_pair (e : Event) :
  match e with
  | Elapse _ => preserves pair_of (handle e)
  | _ => True
  end.
Proof.
  destruct e; try exact I. unfold handle; handlers. unfold translateText.
  handlers. framing.
Qed.

Lemma step_requests (w : World) (e : Event) :
  between_events w ->
  let w' := exec (step e) w in
  sent w' = sent w
  \/ exists r ms,
       e = Elapse ms
       /\ sent w' = sent w ++ [r]
       /\ req_text r = original (react w')
       /\ req_outputLang r = outputLang (react w')
       /\ forallb is_white_space (req_text r) = false.
Proof.
  intros (Hs & Ti & Tc & _) w'. subst w'.
  rewrite exec_step. set (w1 := exec (handle e) w).
  destruct (handle_between_events e w Ti Tc) as (Ti1 & Tc1).
  fold w1 in Ti1, Tc1.
  destruct (commit_establishes w1 Ti1 Tc1) as (_ & _ & _ & Rr).
  destruct (beyond_render_fields _ _ Rr) as (Ro & Rl & _ & _ & Rs).
  rewrite Rs, Ro, Rl.
  pose proof (handle_sent e) as Hse. pose proof (handle_pair e) as Hp.
  destruct e; try (left; apply Hse).
  specialize (Hp w). fold w1 in Hp. unfold pair_of in Hp.
  assert (Po : original (react w1) = original (react w)) by congruence.
  assert (Pl : outputLang (react w1) = outputLang (react w)) by congruence.
  rewrite Po, Pl. clear Hp Po Pl Hse Rr Ro Rl Rs Ti1 Tc1.
  unfold w1, handle. run_js. project.
  destruct Ti as [Et | (t & Et & _)]; rewrite Et; cbn [filter];
    [left; reflexivity|].
  destruct (due (clock w + ms) t); cbn [negb]; [|left; reflexivity].
  cbn [firing_order fold_left insert_by_deadline fire]. run_js.
  assert (Dt : pair_deps w
               = Some (original (timer_scope t), outputLang (timer_scope t))).
  { apply Tc. rewrite Et. left. reflexivity. }
  rewrite (settled_pair_deps w Hs) in Dt.
  unfold pair_of in Dt.
  assert (To : original (timer_scope t) = original (react w)) by congruence.
  assert (Tl : outputLang (timer_scope t) = outputLang (react w)) by congruence.
  unfold debounce_callback.
  destruct (forallb is_white_space (original (timer_scope t))) eqn:B.
  - rewrite (trim_blank _ B). left. unfold sent. reflexivity.
  - rewrite (trim_not_blank _ B). right.
    unfold translateText. run_js. unfold sent. project.
    eexists. exists ms. split; [reflexivity|].
    rewrite fetches_app. cbn [fetches flat_map app].
    split; [reflexivity|]. cbn [req_text req_outputLang].
    rewrite <- To. repeat split; assumption.
Qed.

(** A request is sent only when the timer fires, one at a time, and it is
    for the transcript and the output language the component shows at that
    moment; its text is not blank. Timers are independent of one another
    and each fires unless it was cleared: the property holds because the
    cleanup of the debounce effect clears, by its id, the timer of the
    render before, so that between two events of a mounted component no
    timer of an earlier pair is pending. *)
Theorem requests_are_for_the_current_pair (w : World) (e : Event) :
  reachable w ->
  let w' := exec (step e) w in
  sent w' = sent w
  \/ exists r ms,
       e = Elapse ms
       /\ sent w' = sent w ++ [r]
       /\ req_text r = original (react w')
       /\ req_outputLang r = outputLang (react w')
       /\ forallb is_white_space (req_text r) = false.
Proof.
  intros R. apply step_requests. apply reachable_between_events. exact R.
Qed.

Lemma requests_current_witness :
  let w := exec (run consultation) mounted in
  let w' := exec (step (Elapse 1000)) w in
  reachable w
  /\ (sent w' = sent w
      \/ exists r ms,
           Elapse 1000 = Elapse ms
           /\ sent w' = sent w ++ [r]
           /\ req_text r = original (react w')
           /\ req_outputLang r = outputLang (react w')
           /\ forallb is_white_space (req_text r) = false).
Proof.
  intros w w'.
  assert (R : reachable w)
    by (exists chrome, sample_voices, consultation; reflexivity).
  split; [exact R|].
  apply (requests_are_for_the_current_pair w (Elapse 1000) R).
Defined.

(* ===================================================================== *)
(** ** The replies of the route, and what the client makes of them *)
(* ===================================================================== *)

Lemma after_upstream_shape (o : Outcome) :
  (exists s, translation_reply (Server.after_upstream o) s)
  \/ (error_reply (Server.after_upstream o)
      /\ Server.http_status (Server.after_upstream o) = 500).
Proof.
  assert (E : forall e, error_reply (Server.server_error e)
                        /\ Server.http_status (Server.server_error e) = 500).
  { intros e. split; [|reflexivity]. split; [right; reflexivity|].
    split; [reflexivity|]. eexists. split; [reflexivity|discriminate]. }
  unfold Server.after_upstream.
  destruct o as [e|e|data]; try (right; apply E).
  destruct (to_boolean (get_optional data (lit "choices"))
            && to_boolean (get_first (get_optional data (lit "choices")))).
  - destruct (get (get_first (get_optional data (lit "choices")))
                (lit "message")) as [message|e]; [|right; apply E].
    destruct (get message (lit "content")) as [c|e]; [|right; apply E].
    destruct c; try (right; apply E).
    left. eexists. split; reflexivity.
  - right. split; [|reflexivity]. split; [right; reflexivity|].
    split; [reflexivity|]. eexists. split; [reflexivity|discriminate].
Qed.

Lemma route_reply_cases (key : option jsstring) (body : option Server.Body)
    (o : Outcome) :
  let r := final_reply (Server.translate_route key body) o in
  (exists s, translation_reply r s) \/ error_reply r.
Proof.
  assert (B : error_reply
    {| Server.http_status := 400;
       Server.json := VObject [(lit "error", str "text required")] |}).
  { split; [left; reflexivity|]. split; [reflexivity|].
    eexists. split; [reflexivity|discriminate]. }
  unfold Server.translate_route.
  destruct (Server.text match body with
                        | Some b => b
                        | None => Server.empty_body
                        end) as [[|c t]|]; cbn [final_reply];
    try (right; exact B).
  destruct key as [[|k ks]|]; cbn [final_reply].
  - left. eexists. split; reflexivity.
  - destruct (after_upstream_shape o) as [H|[H _]]; [left|right]; exact H.
  - left. eexists. split; reflexivity.
Qed.


(** The client does not look at the HTTP status, only at the body. So of
    every reply of the route: a reply with a non-empty translation is
    published with Status [translated]; every error reply, whatever its
    status and message, and the reply with an empty translation are shown as
    the quota placeholder with Status [error]; nothing else can come of a
    reply of the route. *)
Theorem client_on_route_reply (key : option jsstring)
    (body : option Server.Body) (o : Outcome) (w : World) :
  let r := final_reply (Server.translate_route key body) o in
  let w' := exec (translateText_resume (Parsed (Server.json r))) w in
  (forall c s, translation_reply r (c :: s) ->
     translated (react w') = VString (c :: s)
     /\ status (react w') = lit "translated")
  /\ (translation_reply r [] \/ error_reply r ->
     translated (react w') = quota_placeholder
     /\ status (react w') = lit "error")
  /\ (status (react w') = lit "translated"
      \/ translated (react w') = quota_placeholder).
Proof.
  intros r w'.
  assert (P : forall c s, translation_reply r (c :: s) ->
     translated (react w') = VString (c :: s)
     /\ status (react w') = lit "translated").
  { intros c s [_ J]. unfold w'. rewrite J. split; reflexivity. }
  assert (Q : translation_reply r [] \/ error_reply r ->
     translated (react w') = quota_placeholder
     /\ status (react w') = lit "error").
  { intros [[_ J]|(_ & T & _)]; unfold w'.
    - rewrite J. split; reflexivity.
    - unfold translateText_resume. run_js. rewrite T. split; reflexivity. }
  split; [exact P|]. split; [exact Q|].
  destruct (route_reply_cases key body o) as [[[|c s] H]|H]; fold r in H.
  - right. apply (Q (or_introl H)).
  - left. apply (P c s H).
  - right. apply (Q (or_intror H)).
Qed.

Lemma client_on_route_reply_witness :
  let r := final_reply
             (Server.translate_route None
                (Some {| Server.text := Some (lit "chest pain");
                         Server.body_outputLang := Some (lit "es") |}))
             (FetchRejected TypeError) in
  let w' := exec (translateText_resume (Parsed (Server.json r))) mounted in
  translated (react w') = str "(OPENAI_API_KEY not set on server) chest pain"
  /\ status (react w') = lit "translated".
Proof.
  intros r w'.
  destruct (client_on_route_reply None
              (Some {| Server.text := Some (lit "chest pain");
                       Server.body_outputLang := Some (lit "es") |})
              (FetchRejected TypeError) mounted) as (H & _).
  apply (H 40%N (lit "OPENAI_API_KEY not set on server) chest pain")).
  split; reflexivity.
Defined.

Lemma debounce_callback_cases (scope : Scope) (w : World) :
  (forallb is_white_space (original scope) = true
   /\ exec (debounce_callback scope) w = w)
  \/ (forallb is_white_space (original scope) = false
      /\ exists r,
           sent (exec (debounce_callback scope) w) = sent w ++ [r]
           /\ req_text r = original scope
           /\ req_outputLang r = outputLang scope).
Proof.
  unfold debounce_callback.
  destruct (forallb is_white_space (original scope)) eqn:B.
  - left. rewrite (trim_blank _ B). split; reflexivity.
  - right. rewrite (trim_not_blank _ B). split; [reflexivity|].
    unfold translateText. run_js. unfold sent. project.
    eexists. rewrite fetches_app. cbn [fetches flat_map app].
    repeat split.
Qed.

(** The callback of the debounce timer sends a request only for a
    transcript that is not blank, so the server never answers a request of
    the client with 400 "text required": whatever the key and the upstream
    API do, the reply is a translation or a 500. *)
Theorem dispatched_request_is_accepted (scope : Scope) (w : World)
    (r : Request) (key : option jsstring) (o : Outcome) :
  sent (exec (debounce_callback scope) w) = sent w ++ [r] ->
  let reply := final_reply (Server.translate_route key (Some (body_of r))) o in
  req_text r <> []
  /\ Server.http_status reply <> 400
  /\ ((exists s, translation_reply reply s) \/ Server.http_status reply = 500).
Proof.
  intros S reply.
  assert (T : req_text r <> []).
  { destruct (debounce_callback_cases scope w) as [[_ E]|[B (r' & E & Rt & _)]].
    - rewrite E in S. apply (f_equal (@length Request)) in S.
      rewrite length_app in S. cbn in S. lia.
    - rewrite E in S. apply app_inv_head in S. inversion S; subst r'.
      rewrite Rt. intros X. rewrite X in B. discriminate. }
  split; [exact T|].
  unfold reply, Server.translate_route, body_of. cbn [Server.text].
  destruct (req_text r) as [|c t]; [contradiction|].
  destruct key as [[|k ks]|]; cbn [final_reply].
  - split; [discriminate|]. left. eexists. split; reflexivity.
  - destruct (after_upstream_shape o) as [[s H]|[_ H]].
    + split; [destruct H as [H _]; rewrite H; discriminate|].
      left. exists s. exact H.
    + split; [rewrite H; discriminate|]. right. exact H.
  - split; [discriminate|]. left. eexists. split; reflexivity.
Qed.

Lemma dispatched_request_witness :
  let scope := with_original (lit "chest pain") (react mounted) in
  exists r,
    sent (exec (debounce_callback scope) mounted) = sent mounted ++ [r]
    /\ Server.http_status
         (final_reply (Server.translate_route None (Some (body_of r)))
            (FetchRejected TypeError)) <> 400.
Proof.
  intros scope.
  destruct (debounce_callback_cases scope mounted) as [[B _]|[_ (r & E & _)]].
  - vm_compute in B. discriminate.
  - exists r. split; [exact E|].
    apply (dispatched_request_is_accepted scope mounted r None
             (FetchRejected TypeError) E).
Defined.

(* ===================================================================== *)
(** ** Starting and stopping *)
(* ===================================================================== *)

Lemma toggle_start_eq (scope : Scope) (w : World) (id : nat) :
  listening scope = false ->
  recognitionRef w = Some id ->
  phase_of id w = Some Inactive ->
  toggleListening scope w
  = (inl tt,
     set_heap (update id (with_phase Capturing) (heap w))
       (set_calls (calls w ++ [RecStart id]) w)).
Proof.
  intros L R P.
  cbv [toggleListening toggle bind gets modify ret try_catch try_ignore method].
  rewrite !R. cbv beta iota. rewrite L. cbn [negb].
  rewrite (rec_start_idle id w P). reflexivity.
Qed.

Lemma rec_stop_eq (id : nat) (w : World) :
  rec_stop id w
  = (inl tt,
     match phase_of id w with
     | Some Capturing =>
         set_heap (update id (with_phase Stopping) (heap w))
           (set_calls (calls w ++ [RecStop id]) w)
     | _ => set_calls (calls w ++ [RecStop id]) w
     end).
Proof.
  unfold rec_stop, set_phase. run_js.
  change (phase_of id (set_calls (calls w ++ [RecStop id]) w))
    with (phase_of id w).
  destruct (phase_of id w) as [[]|]; reflexivity.
Qed.

Lemma toggle_stop_eq (scope : Scope) (w : World) (id : nat) :
  listening scope = true ->
  recognitionRef w = Some id ->
  toggleListening scope w = rec_stop id w.
Proof.
  intros L R.
  cbv [toggleListening toggle bind gets modify ret try_catch try_ignore method].
  rewrite !R. cbv beta iota. rewrite L. cbn [negb].
  rewrite rec_stop_eq. reflexivity.
Qed.

(** [toggleListening] while the listening flag is on asks the recognizer
    to stop, never to abort, so that pending final results are still
    delivered: the only call is [stop()], a capturing session becomes a
    stopping one, no other recognizer is touched, and the React state
    (Status and the flag included) is left for [onend] to update. *)
Theorem toggle_stops_gracefully (scope : Scope) (w : World) (id : nat) :
  listening scope = true ->
  recognitionRef w = Some id ->
  let w' := exec (toggleListening scope) w in
  calls w' = calls w ++ [RecStop id]
  /\ react w' = react w
  /\ recognitionRef w' = Some id
  /\ (phase_of id w = Some Capturing -> phase_of id w' = Some Stopping)
  /\ (phase_of id w <> Some Capturing -> heap w' = heap w)
  /\ (forall j, j <> id -> phase_of j w' = phase_of j w).
Proof.
  intros L R w'. subst w'. unfold exec.
  rewrite (toggle_stop_eq scope w id L R), rec_stop_eq. cbn [snd].
  destruct (phase_of id w) as [p|] eqn:P; [destruct p|]; project.
  all: split; [reflexivity|]; split; [reflexivity|]; split; [exact R|].
  all: split; [|split]; try discriminate; try reflexivity;
       try (intros _; reflexivity); try (intros X; congruence);
       try (intros j Hj; reflexivity).
  - intros _. unfold phase_of in *. project. rewrite nth_error_update.
    destruct (nth_error (heap w) id); [reflexivity|discriminate].
  - intros j Hj. unfold phase_of. project.
    rewrite nth_error_update_other by congruence. reflexivity.
Qed.

Lemma toggle_stops_witness :
  let w := exec (run [ClickToggle; RecStarted 0]) mounted in
  let w' := exec (toggleListening (react w)) w in
  listening (react w) = true
  /\ calls w' = calls w ++ [RecStop 0]
  /\ phase_of 0 w' = Some Stopping
  /\ status (react w') = lit "listening".
Proof.
  intros w w'.
  destruct (toggle_stops_gracefully (react w) w 0 eq_refl eq_refl)
    as (C & R & _ & P & _).
  split; [reflexivity|]. split; [exact C|]. split; [apply P; reflexivity|].
  fold w' in R. rewrite R. reflexivity.
Defined.

(** Without speech recognition in the browser and without a recognizer,
    [toggleListening] sets Status to [no-speech-api] and does nothing else:
    no recognizer is created and no call is made. *)
Theorem toggle_without_speech_api (scope : Scope) (w : World) :
  has_speech_recognition (env w) = false ->
  recognitionRef w = None ->
  exec (toggleListening scope) w
  = set_react (with_status (lit "no-speech-api") (react w)) w.
Proof.
  intros H R. unfold toggleListening, hasSpeechRecognition. run_js.
  rewrite R, H. reflexivity.
Qed.

Lemma toggle_without_speech_api_witness :
  let w := mount no_speech sample_voices in
  status (react w) = lit "no-speech-api"
  /\ heap w = []
  /\ exec (toggleListening (react w)) w = w.
Proof.
  intros w. split; [reflexivity|]. split; [reflexivity|].
  rewrite (toggle_without_speech_api (react w) w eq_refl eq_refl).
  reflexivity.
Defined.

Lemma step_settled (e : Event) (w : World) :
  settled (exec (handle e) w) -> exec (step e) w = exec (handle e) w.
Proof.
  intros H. rewrite exec_step. unfold exec at 1.
  rewrite (commit_settled _ H). reflexivity.
Qed.

Lemma closure_after_phase (id j : nat) (p : phase) (h : list Recognition) :
  match nth_error (update j (with_phase p) h) id with
  | Some r => rec_closure r
  | None => None
  end
  = match nth_error h id with
    | Some r => rec_closure r
    | None => None
    end.
Proof.
  destruct (Nat.eq_dec j id) as [E|N].
  - subst j. rewrite nth_error_update.
    destruct (nth_error h id); reflexivity.
  - rewrite nth_error_update_other by exact N. reflexivity.
Qed.

Lemma phase_after_phase (id : nat) (p q : phase) (h : list Recognition) :
  option_map rec_phase (nth_error h id) = Some q ->
  option_map rec_phase (nth_error (update id (with_phase p) h) id) = Some p.
Proof.
  intros H. rewrite nth_error_update.
  destruct (nth_error h id); [reflexivity|discriminate].
Qed.

Lemma step_toggle_start (w : World) (id : nat) :
  settled w ->
  listening (react w) = false ->
  recognitionRef w = Some id ->
  phase_of id w = Some Inactive ->
  exec (step ClickToggle) w
  = set_heap (update id (with_phase Capturing) (heap w))
      (set_calls (calls w ++ [RecStart id]) w).
Proof.
  intros Hs L R P.
  assert (E : exec (handle ClickToggle) w
              = set_heap (update id (with_phase Capturing) (heap w))
                  (set_calls (calls w ++ [RecStart id]) w)).
  { unfold handle. rewrite exec_gets. unfold exec.
    rewrite (toggle_start_eq (react w) w id L R P). reflexivity. }
  rewrite step_settled; rewrite E; [reflexivity | exact Hs].
Qed.

Lemma step_toggle_stop (w : World) (id : nat) :
  settled w ->
  listening (react w) = true ->
  recognitionRef w = Some id ->
  phase_of id w = Some Capturing ->
  exec (step ClickToggle) w
  = set_heap (update id (with_phase Stopping) (heap w))
      (set_calls (calls w ++ [RecStop id]) w).
Proof.
  intros Hs L R P.
  assert (E : exec (handle ClickToggle) w
              = set_heap (update id (with_phase Stopping) (heap w))
                  (set_calls (calls w ++ [RecStop id]) w)).
  { unfold handle. rewrite exec_gets. unfold exec.
    rewrite (toggle_stop_eq (react w) w id L R), rec_stop_eq, P.
    reflexivity. }
  rewrite step_settled; rewrite E; [reflexivity | exact Hs].
Qed.

Lemma step_started (w : World) (id : nat) (o : jsstring) :
  settled w ->
  closure_of id w = Some o ->
  exec (step (RecStarted id)) w
  = set_react (with_status (lit "listening")
                 (with_listening true (react w))) w.
Proof.
  intros Hs C.
  assert (E : exec (handle (RecStarted id)) w
              = set_react (with_status (lit "listening")
                             (with_listening true (react w))) w).
  { unfold handle, deliver, onstart. run_js. rewrite C. reflexivity. }
  rewrite step_settled; rewrite E; [reflexivity | exact Hs].
Qed.

Lemma step_ended (w : World) (id : nat) (o : jsstring) :
  settled w ->
  closure_of id w = Some o ->
  exec (step (RecEnded id)) w
  = set_react
      (with_status
         (if str_eqb (status (react w)) (lit "network-error")
          then status (react w) else lit "idle")
         (with_listening false (react w)))
      (set_heap (update id (with_phase Inactive) (heap w)) w).
Proof.
  intros Hs C.
  assert (E : exec (handle (RecEnded id)) w
              = set_react
                  (with_status
                     (if str_eqb (status (react w)) (lit "network-error")
                      then status (react w) else lit "idle")
                     (with_listening false (react w)))
                  (set_heap (update id (with_phase Inactive) (heap w)) w)).
  { unfold handle, deliver, onend, set_phase. run_js.
    unfold closure_of in *. project. rewrite closure_after_phase, C.
    reflexivity. }
  rewrite step_settled; rewrite E; [reflexivity | exact Hs].
Qed.

(** A session started and then stopped by the button, with the events
    the recognizer sends in between: while it runs the flag is on and Status
    is [listening]; once it has ended the flag is off, Status is [idle] and
    the recognizer can be started again. The recognizer was asked to start
    and to stop, once each, and the transcript and the translation are as
    they were. *)
Theorem start_stop_round_trip (w : World) (id : nat) (o : jsstring) :
  settled w ->
  listening (react w) = false ->
  recognitionRef w = Some id ->
  phase_of id w = Some Inactive ->
  closure_of id w = Some o ->
  let running := exec (run [ClickToggle; RecStarted id]) w in
  let w' := exec (run [ClickToggle; RecEnded id]) running in
  (listening (react running) = true
   /\ status (react running) = lit "listening"
   /\ phase_of id running = Some Capturing)
  /\ listening (react w') = false
  /\ status (react w') = lit "idle"
  /\ phase_of id w' = Some Inactive
  /\ recognitionRef w' = Some id
  /\ calls w' = calls w ++ [RecStart id; RecStop id]
  /\ original (react w') = original (react w)
  /\ translated (react w') = translated (react w).
Proof.
  intros Hs L R P C running w'.
  assert (P0 : option_map rec_phase (nth_error (heap w) id) = Some Inactive)
    by exact P.
  assert (E1 : running
    = set_react (with_status (lit "listening")
                   (with_listening true (react w)))
        (set_heap (update id (with_phase Capturing) (heap w))
           (set_calls (calls w ++ [RecStart id]) w))).
  { unfold running. rewrite !exec_run_cons. cbn [run exec ret snd].
    rewrite (step_toggle_start w id Hs L R P).
    rewrite (step_started _ id o); [reflexivity | exact Hs |].
    unfold closure_of in *. project. rewrite closure_after_phase. exact C. }
  assert (P1 : phase_of id running = Some Capturing).
  { rewrite E1. unfold phase_of. project.
    apply phase_after_phase with (q := Inactive). exact P0. }
  assert (C1 : closure_of id running = Some o).
  { rewrite E1. unfold closure_of in *. project.
    rewrite closure_after_phase. exact C. }
  assert (Hs1 : settled running) by (rewrite E1; exact Hs).
  assert (L1 : listening (react running) = true) by (rewrite E1; reflexivity).
  assert (R1 : recognitionRef running = Some id) by (rewrite E1; exact R).
  split.
  { split; [exact L1|]. split; [rewrite E1; reflexivity | exact P1]. }
  assert (E2 : w'
    = set_react
        (with_status (lit "idle") (with_listening false (react running)))
        (set_heap
           (update id (with_phase Inactive)
              (update id (with_phase Stopping) (heap running)))
           (set_calls (calls running ++ [RecStop id]) running))).
  { unfold w'. rewrite !exec_run_cons. cbn [run exec ret snd].
    rewrite (step_toggle_stop running id Hs1 L1 R1 P1).
    rewrite (step_ended _ id o).
    - project. rewrite E1 at 1. fields. reflexivity.
    - exact Hs1.
    - unfold closure_of in *. project. rewrite closure_after_phase.
      exact C1. }
  rewrite E2. fields.
  split; [reflexivity|]. split; [reflexivity|].
  split.
  { unfold phase_of in *. project.
    apply phase_after_phase with (q := Stopping).
    apply phase_after_phase with (q := Capturing). exact P1. }
  split; [exact R1|].
  rewrite E1. fields. rewrite <- app_assoc. repeat split.
Qed.

Lemma start_stop_round_trip_witness :
  let w' := exec (run [ClickToggle; RecStarted 0; ClickToggle; RecEnded 0])
              mounted in
  listening (react w') = false
  /\ status (react w') = lit "idle"
  /\ phase_of 0 w' = Some Inactive
  /\ calls w' = calls mounted ++ [RecStart 0; RecStop 0].
Proof.
  intros w'.
  assert (Hs : settled mounted) by (split; vm_compute; reflexivity).
  destruct (start_stop_round_trip mounted 0 (lit "") Hs
              eq_refl eq_refl eq_refl eq_refl)
    as (_ & L & S & P & _ & C & _).
  assert (E : w' = exec (run [ClickToggle; RecEnded 0])
                     (exec (run [ClickToggle; RecStarted 0]) mounted))
    by (vm_compute; reflexivity).
  rewrite E. repeat split; assumption.
Defined.

Lemma step_network_error (w : World) (id : nat) (o : jsstring) :
  settled w ->
  closure_of id w = Some o ->
  phase_of id w = Some Capturing ->
  exec (step (RecError id (Some {| error := lit "network" |}))) w
  = set_heap (update id (with_phase Aborting) (heap w))
      (set_calls (calls w ++ [RecAbort id])
         (set_react (with_status (lit "network-error") (react w)) w)).
Proof.
  intros Hs C P.
  assert (E : exec (handle (RecError id (Some {| error := lit "network" |}))) w
    = set_heap (update id (with_phase Aborting) (heap w))
        (set_calls (calls w ++ [RecAbort id])
           (set_react (with_status (lit "network-error") (react w)) w))).
  { unfold handle, deliver, onerror. cbn [error].
    change (str_eqb (lit "network") (lit "network")) with true.
    run_js. rewrite C.
    rewrite rec_abort_capturing by exact P. reflexivity. }
  rewrite step_settled; rewrite E; [reflexivity | exact Hs].
Qed.

(** A network error during a session, and the way out of it. The error
    sets Status to [network-error] and aborts the session; when the session
    has ended the flag is off and Status is still [network-error], and stays
    so until the user acts. A click on the button then starts the very same
    recognizer again (none is created): the flag is on, Status is
    [listening]. *)
Theorem network_error_then_restart (w : World) (id : nat) (o : jsstring) :
  settled w ->
  recognitionRef w = Some id ->
  phase_of id w = Some Capturing ->
  closure_of id w = Some o ->
  let failed := exec (run [RecError id (Some {| error := lit "network" |});
                           RecEnded id]) w in
  let w' := exec (run [ClickToggle; RecStarted id]) failed in
  (status (react failed) = lit "network-error"
   /\ listening (react failed) = false
   /\ phase_of id failed = Some Inactive
   /\ calls failed = calls w ++ [RecAbort id])
  /\ status (react w') = lit "listening"
  /\ listening (react w') = true
  /\ phase_of id w' = Some Capturing
  /\ recognitionRef w' = Some id
  /\ length (heap w') = length (heap w)
  /\ calls w' = calls w ++ [RecAbort id; RecStart id]
  /\ original (react w') = original (react w).
Proof.
  intros Hs R P C failed w'.
  assert (P0 : option_map rec_phase (nth_error (heap w) id) = Some Capturing)
    by exact P.
  assert (E1 : failed
    = set_react (with_status (lit "network-error")
                   (with_listening false (react w)))
        (set_heap (update id (with_phase Inactive)
                     (update id (with_phase Aborting) (heap w)))
           (set_calls (calls w ++ [RecAbort id]) w))).
  { unfold failed. rewrite !exec_run_cons. cbn [run exec ret snd].
    rewrite (step_network_error w id o Hs C P).
    rewrite (step_ended _ id o).
    - fields. change (str_eqb (lit "network-error") (lit "network-error"))
        with true. cbv iota. apply world_ext; fields; reflexivity.
    - exact Hs.
    - unfold closure_of in *. project. rewrite closure_after_phase.
      exact C. }
  assert (P1 : phase_of id failed = Some Inactive).
  { rewrite E1. unfold phase_of. project.
    apply phase_after_phase with (q := Aborting).
    apply phase_after_phase with (q := Capturing). exact P0. }
  assert (C1 : closure_of id failed = Some o).
  { rewrite E1. unfold closure_of in *. project.
    rewrite !closure_after_phase. exact C. }
  assert (Hs1 : settled failed) by (rewrite E1; exact Hs).
  assert (L1 : listening (react failed) = false) by (rewrite E1; reflexivity).
  assert (R1 : recognitionRef failed = Some id) by (rewrite E1; exact R).
  split.
  { split; [rewrite E1; reflexivity|]. split; [exact L1|].
    split; [exact P1|]. rewrite E1. reflexivity. }
  assert (E2 : w'
    = set_react (with_status (lit "listening")
                   (with_listening true (react failed)))
        (set_heap (update id (with_phase Capturing) (heap failed))
           (set_calls (calls failed ++ [RecStart id]) failed))).
  { unfold w'. rewrite !exec_run_cons. cbn [run exec ret snd].
    rewrite (step_toggle_start failed id Hs1 L1 R1 P1).
    rewrite (step_started _ id o); [reflexivity | exact Hs1 |].
    unfold closure_of in *. project. rewrite closure_after_phase. exact C1. }
  rewrite E2. fields.
  split; [reflexivity|]. split; [reflexivity|].
  split.
  { unfold phase_of in *. project.
    apply phase_after_phase with (q := Inactive). exact P1. }
  split; [exact R1|].
  rewrite E1. fields. rewrite !update_length, <- app_assoc. repeat split.
Qed.

Lemma network_error_witness :
  let w := exec (run [ClickToggle; RecStarted 0]) mounted in
  let failed := exec (run [RecError 0 (Some {| error := lit "network" |});
                           RecEnded 0]) w in
  let w' := exec (run [ClickToggle; RecStarted 0]) failed in
  status (react failed) = lit "network-error"
  /\ status (react w') = lit "listening"
  /\ phase_of 0 w' = Some Capturing
  /\ length (heap w') = 1.
Proof.
  intros w failed w'.
  assert (Hs : settled w) by (split; vm_compute; reflexivity).
  destruct (network_error_then_restart w 0 (lit "") Hs
              eq_refl eq_refl eq_refl)
    as ((S1 & _) & S2 & _ & P & _ & H & _).
  split; [exact S1|]. split; [exact S2|]. split; [exact P|].
  fold failed w' in H. rewrite H. reflexivity.
Defined.

(* ===================================================================== *)
(** ** Speaking the translation *)
(* ===================================================================== *)

(** [speak()] with a translation: an engine that is speaking is cancelled
    first, so that the new utterance is the only one queued; then exactly
    one utterance is handed to the engine, with the translation as text and
    the output language as language. Its voice, when it has one, is a voice
    of the engine whose language tag is not empty and starts with the output
    language, and it has none only when no voice of the engine is such. The
    React state is not touched. *)
Theorem speak_utters_translation (scope : Scope) (w : World) :
  to_boolean (translated scope) = true ->
  let w' := exec (speak scope) w in
  let u := utterance_of scope (voices (synth w)) in
  threw (speak scope) w = false
  /\ calls w'
     = calls w ++ (if speaking (synth w) then [SynthCancel] else [])
               ++ [SynthSpeak u]
  /\ queue (synth w')
     = (if speaking (synth w) then [] else queue (synth w)) ++ [u]
  /\ speaking (synth w') = true
  /\ react w' = react w
  /\ (forall v, utter_voice u = Some v ->
        In v (voices (synth w))
        /\ voice_lang v <> []
        /\ starts_with (voice_lang v) (outputLang scope) = true)
  /\ (utter_voice u = None ->
        forall v, In v (voices (synth w)) ->
          voice_lang v = []
          \/ starts_with (voice_lang v) (outputLang scope) = false).
Proof.
  intros T w' u. subst w' u.
  unfold speak, synth_cancel, synth_speak, utterance_of. rewrite T.
  cbn [negb]. run_js. project.
  destruct (speaking (synth w)); cbn [fst snd]; project; cbn [voices queue speaking].
  all: split; [reflexivity|].
  all: split; [rewrite <- ?app_assoc; reflexivity|].
  all: split; [reflexivity|]; split; [reflexivity|]; split; [reflexivity|].
  all: cbn [utter_voice]; split.
  all: try (intros v Hv; apply find_some in Hv; destruct Hv as [Hi Hm];
            split; [exact Hi|]; unfold voice_matches in Hm;
            destruct (voice_lang v); [discriminate|];
            split; [discriminate | exact Hm]).
  all: intros Hn v Hi; pose proof (find_none _ _ Hn v Hi) as Hm;
       unfold voice_matches in Hm;
       destruct (voice_lang v); [left; reflexivity | right; exact Hm].
Qed.

Lemma speak_utters_witness :
  let scope := with_translated (str "dolor en el pecho")
                 (with_outputLang (lit "es") (react mounted)) in
  let w' := exec (speak scope) mounted in
  queue (synth w')
  = [{| utter_text := str "dolor en el pecho";
        utter_voice := Some {| voice_name := lit "Monica";
                               voice_lang := lit "es-ES" |};
        utter_lang := lit "es" |}]
  /\ speaking (synth w') = true.
Proof.
  intros scope w'.
  destruct (speak_utters_translation scope mounted eq_refl)
    as (_ & _ & Q & S & _).
  split; [|exact S]. fold w' in Q. rewrite Q. reflexivity.
Defined.

(* ===================================================================== *)
(** ** Changing the input language *)
(* ===================================================================== *)

Lemma rec_abort_eq (id : nat) (w : World) :
  rec_abort id w
  = (inl tt,
     set_heap (aborted id (heap w)) (set_calls (calls w ++ [RecAbort id]) w)).
Proof.
  unfold rec_abort, set_phase, aborted. run_js.
  change (phase_of id (set_calls (calls w ++ [RecAbort id]) w))
    with (option_map rec_phase (nth_error (heap w) id)).
  destruct (option_map rec_phase (nth_error (heap w) id)) as [[]|];
    try reflexivity.
  all: f_equal; apply world_ext; project; reflexivity.
Qed.

Lemma aborted_length (id : nat) (h : list Recognition) :
  length (aborted id h) = length h.
Proof.
  unfold aborted.
  destruct (option_map rec_phase (nth_error h id)) as [[]|];
    try reflexivity; apply update_length.
Qed.

Lemma aborted_closure (id j : nat) (h : list Recognition) :
  match nth_error (aborted id h) j with
  | Some r => rec_closure r
  | None => None
  end
  = match nth_error h j with
    | Some r => rec_closure r
    | None => None
    end.
Proof.
  unfold aborted.
  destruct (option_map rec_phase (nth_error h id)) as [[]|];
    try reflexivity; apply closure_after_phase.
Qed.

Lemma aborted_not_capturing (id : nat) (h : list Recognition) :
  option_map rec_phase (nth_error (aborted id h) id) <> Some Capturing
  /\ option_map rec_phase (nth_error (aborted id h) id) <> Some Stopping.
Proof.
  unfold aborted.
  destruct (option_map rec_phase (nth_error h id)) as [[]|] eqn:E;
    try (rewrite E; split; discriminate).
  all: rewrite (phase_after_phase id Aborting _ h E); split; discriminate.
Qed.

Lemma handle_select_inputLang (v : jsstring) (w : World) (id : nat) :
  recognitionRef w = Some id ->
  exec (handle (SelectInputLang v)) w
  = set_react (with_inputLang v (react w))
      (set_heap (aborted id (heap w))
         (set_calls (calls w ++ [RecAbort id]) w)).
Proof.
  intros R. unfold handle, onChange_inputLang. run_js. rewrite R.
  rewrite rec_abort_eq. reflexivity.
Qed.

Lemma lang_effect_cleanup_eq (w : World) (id : nat) :
  recognitionRef w = Some id ->
  exec lang_effect_cleanup w
  = set_recognitionRef None
      (set_heap (aborted id (update id without_handlers (heap w)))
         (set_calls (calls w ++ [RecAbort id]) w)).
Proof.
  intros R. unfold lang_effect_cleanup, remove_handlers. run_js. rewrite R.
  rewrite rec_abort_eq. cbn [fst snd]. apply world_ext; project; reflexivity.
Qed.

Lemma lang_effect_eq (scope : Scope) (d : option jsstring) (w : World) :
  has_speech_recognition (env w) = true ->
  exec (c <- lang_effect scope;; modify (set_lang_effect d c)) w
  = set_lang_effect d true
      (set_recognitionRef (Some (length (heap w)))
         (set_heap (heap w ++ [new_recognition scope]) w)).
Proof.
  intros H. unfold lang_effect, hasSpeechRecognition. run_js. rewrite H.
  cbn [negb]. rewrite createRecognition_supported by exact H. reflexivity.
Qed.

Lemma settled_lang_deps (w : World) :
  settled w -> lang_deps w = Some (inputLang (react w)).
Proof.
  intros [L _]. unfold lang_changed in L.
  destruct (lang_deps w) as [l|]; [|discriminate].
  apply negb_false_iff, str_eqb_eq in L. congruence.
Qed.

Lemma without_handlers_closure (id : nat) (h : list Recognition)
    (r : Recognition) :
  nth_error h id = Some r ->
  match nth_error (update id without_handlers h) id with
  | Some r => rec_closure r
  | None => None
  end = None.
Proof.
  intros H. rewrite nth_error_update, H. reflexivity.
Qed.

(** The world after the input language is changed to [v], the recognizer
    [id] being the current one. *)
Lemma step_select_inputLang (v : jsstring) (w : World) (id : nat) :
  settled w ->
  v <> inputLang (react w) ->
  recognitionRef w = Some id ->
  has_speech_recognition (env w) = true ->
  lang_cleanup w = true ->
  exec (step (SelectInputLang v)) w
  = set_lang_effect (Some v) true
      (set_recognitionRef (Some (length (heap w)))
         (set_heap
            (aborted id (update id without_handlers (aborted id (heap w)))
             ++ [new_recognition (with_inputLang v (react w))])
            (set_calls (calls w ++ [RecAbort id; RecAbort id])
               (set_react (with_inputLang v (react w)) w)))).
Proof.
  intros Hs N R H Lc.
  pose proof (settled_lang_deps w Hs) as Ld.
  destruct Hs as [_ Pc].
  rewrite exec_step, (handle_select_inputLang v w id R), commit_stages.
  set (w1 := set_react (with_inputLang v (react w))
               (set_heap (aborted id (heap w))
                  (set_calls (calls w ++ [RecAbort id]) w))).
  assert (E1 : lang_changed w1 = true).
  { unfold lang_changed, w1. fields. rewrite Ld.
    rewrite str_eqb_neq by congruence. reflexivity. }
  assert (E2 : pair_changed w1 = false) by exact Pc.
  assert (E3 : lang_cleanup w1 = true) by exact Lc.
  assert (E4 : match debounce_id w1 with
               | Some old => if false then debounce_cleanup old else ret tt
               | None => ret tt
               end = ret tt)
    by (destruct (debounce_id w1); reflexivity).
  rewrite E1, E2, E3, E4. cbn [andb]. cbn [exec ret snd].
  fold (exec (A := unit)).
  rewrite (lang_effect_cleanup_eq w1 id R).
  cbn [exec ret snd].
  rewrite lang_effect_eq by exact H.
  unfold w1. apply world_ext; fields; try reflexivity.
  - rewrite aborted_length, update_length, aborted_length. reflexivity.
  - rewrite <- app_assoc. reflexivity.
Qed.

Lemma handle_without_handlers (id : nat) (e : Event) (w : World) :
  sent_by id e ->
  closure_of id w = None ->
  exec (handle e) w
  = match e with
    | RecEnded _ => set_heap (update id (with_phase Inactive) (heap w)) w
    | _ => w
    end.
Proof.
  intros S C.
  destruct e; cbn [sent_by] in S; try contradiction; subst id0;
    unfold handle, deliver, set_phase; run_js.
  - rewrite C. reflexivity.
  - unfold closure_of in *. project. rewrite closure_after_phase, C.
    reflexivity.
  - rewrite C. reflexivity.
  - rewrite C. reflexivity.
Qed.

(** Changing the input language discards the recognizer and makes a new
    one. The old one is aborted (twice: by the select and by the cleanup of
    the effect) and its handlers are removed, so that whatever it still
    sends (results, errors, even its [end]) no longer reaches the React
    state; the new one is created for the new language, in the scope of the
    new render, and is not started. Of the React state only the input
    language changes: a listening flag that was on stays on. *)
Theorem input_language_change_recreates
    (v : jsstring) (w : World) (id : nat) (r : Recognition) :
  settled w ->
  v <> inputLang (react w) ->
  recognitionRef w = Some id ->
  nth_error (heap w) id = Some r ->
  has_speech_recognition (env w) = true ->
  lang_cleanup w = true ->
  let w' := exec (step (SelectInputLang v)) w in
  let fresh := length (heap w) in
  react w' = with_inputLang v (react w)
  /\ recognitionRef w' = Some fresh
  /\ nth_error (heap w') fresh
     = Some {| rec_continuous := true; rec_interimResults := true;
               rec_lang := v; rec_maxAlternatives := 1%N;
               rec_closure := Some (original (react w));
               rec_phase := Inactive |}
  /\ closure_of id w' = None
  /\ phase_of id w' <> Some Capturing
  /\ calls w' = calls w ++ [RecAbort id; RecAbort id]
  /\ (forall e, sent_by id e -> react (exec (step e) w') = react w').
Proof.
  intros Hs N R Hr H Lc w' fresh.
  assert (E : w' = _) by exact (step_select_inputLang v w id Hs N R H Lc).
  assert (Hlen : length (aborted id (update id without_handlers
                                       (aborted id (heap w))))
                 = length (heap w))
    by (rewrite aborted_length, update_length, aborted_length; reflexivity).
  assert (Hlt : id < length (heap w)) by (apply nth_error_Some; congruence).
  assert (C' : closure_of id w' = None).
  { rewrite E. unfold closure_of. project.
    rewrite nth_error_app1 by (rewrite Hlen; exact Hlt).
    rewrite aborted_closure.
    destruct (nth_error (aborted id (heap w)) id) as [r'|] eqn:Er.
    - apply (without_handlers_closure id _ r' Er).
    - apply nth_error_None in Er. rewrite aborted_length in Er. lia. }
  assert (Hs' : settled w').
  { destruct Hs as [_ Pc]. rewrite E. split.
    - unfold lang_changed. fields. rewrite str_eqb_refl. reflexivity.
    - exact Pc. }
  split; [rewrite E; reflexivity|].
  split; [rewrite E; reflexivity|].
  split.
  { rewrite E. project. subst fresh. rewrite <- Hlen at 1.
    rewrite nth_error_app2, Nat.sub_diag by reflexivity. reflexivity. }
  split; [exact C'|].
  split.
  { rewrite E. unfold phase_of. project.
    rewrite nth_error_app1 by (rewrite Hlen; exact Hlt).
    apply aborted_not_capturing. }
  split; [rewrite E; reflexivity|].
  intros e Se. rewrite step_settled.
  - rewrite (handle_without_handlers id e w' Se C').
    destruct e; reflexivity.
  - rewrite (handle_without_handlers id e w' Se C').
    destruct e; exact Hs'.
Qed.

Lemma input_language_change_witness :
  let w := exec (run consultation) mounted in
  let w' := exec (step (SelectInputLang (lit "es-ES"))) w in
  recognitionRef w' = Some 1
  /\ option_map rec_lang (nth_error (heap w') 1) = Some (lit "es-ES")
  /\ closure_of 0 w' = None
  /\ listening (react w') = true
  /\ react (exec (step (RecEnded 0)) w') = react w'.
Proof.
  intros w w'.
  assert (Hs : settled w) by (split; vm_compute; reflexivity).
  assert (N : lit "es-ES" <> inputLang (react w))
    by (vm_compute; discriminate).
  destruct (nth_error (heap w) 0) as [r|] eqn:Hr;
    [|vm_compute in Hr; discriminate].
  destruct (input_language_change_recreates (lit "es-ES") w 0 r Hs N
              eq_refl Hr eq_refl eq_refl)
    as (Re & Rf & Hn & C & _ & _ & Ev).
  fold w' in Re, Rf, Hn, C, Ev.
  assert (F : length (heap w) = 1) by (vm_compute; reflexivity).
  rewrite F in Rf, Hn.
  split; [exact Rf|]. split; [rewrite Hn; reflexivity|].
  split; [exact C|]. split; [rewrite Re; reflexivity|].
  apply Ev. reflexivity.
Defined.

(* ===================================================================== *)
(** ** Clearing, and changing the output language *)
(* ===================================================================== *)

Lemma step_clear_transcript (w : World) :
  between_events w -> original (react (exec (step ClickClear) w)) = [].
Proof.
  intros (_ & Ti & Tc & _). rewrite exec_step.
  destruct (handle_between_events ClickClear w Ti Tc) as (Ti1 & Tc1).
  destruct (commit_establishes _ Ti1 Tc1) as (_ & _ & _ & R).
  destruct (beyond_render_fields _ _ R) as (Ro & _). rewrite Ro.
  reflexivity.
Qed.

Lemma step_elapse_transcript (ms : nat) (w : World) :
  between_events w ->
  original (react (exec (step (Elapse ms)) w)) = original (react w).
Proof.
  intros (_ & Ti & Tc & _). rewrite exec_step.
  destruct (handle_between_events (Elapse ms) w Ti Tc) as (Ti1 & Tc1).
  destruct (commit_establishes _ Ti1 Tc1) as (_ & _ & _ & Rr).
  destruct (beyond_render_fields _ _ Rr) as (Ro & _). rewrite Ro.
  pose proof (handle_pair (Elapse ms) w) as Hp. unfold pair_of in Hp.
  congruence.
Qed.

(** A click on Clear calls off the request that was waiting for the
    timer: whatever the component has been through, after the click nothing
    is sent when time passes, however long. The timer that was pending for
    the old transcript does not fire, because the cleanup of the debounce
    effect has cleared it by its id in the render after the click (a timer
    that is not cleared fires, whatever is armed after it); the timer armed
    by that render is for the empty transcript and sends nothing. *)
Theorem clear_cancels_pending_dispatch (w : World) (ms : nat) :
  reachable w ->
  let w' := exec (run [ClickClear; Elapse ms]) w in
  sent w' = sent w /\ original (react w') = [].
Proof.
  intros R w'. subst w'.
  pose proof (reachable_between_events w R) as B.
  rewrite !exec_run_cons. cbn [run exec ret snd].
  set (w1 := exec (step ClickClear) w).
  assert (B1 : between_events w1) by (apply step_between_events; exact B).
  assert (O1 : original (react w1) = [])
    by (apply step_clear_transcript; exact B).
  assert (O2 : original (react (exec (step (Elapse ms)) w1)) = [])
    by (rewrite step_elapse_transcript by exact B1; exact O1).
  assert (S1 : sent w1 = sent w).
  { destruct (step_requests w ClickClear B) as [E|(r & m & E & _)];
      [exact E | discriminate]. }
  split; [|exact O2].
  destruct (step_requests w1 (Elapse ms) B1)
    as [E|(r & m & _ & E & Rt & _ & Nb)].
  - congruence.
  - rewrite Rt, O2 in Nb. discriminate.
Qed.

Lemma clear_cancels_witness :
  let w := exec (run consultation) mounted in
  reachable w
  /\ original (react w) = lit "chest pain"
  /\ sent (exec (run [ClickClear; Elapse 5000]) w) = sent w.
Proof.
  intros w.
  assert (R : reachable w)
    by (exists chrome, sample_voices, consultation; reflexivity).
  split; [exact R|]. split; [reflexivity|].
  apply (clear_cancels_pending_dispatch w 5000 R).
Defined.

(** Choosing another output language sends the transcript again, for the
    new language: if the transcript is not blank, then a second (or more)
    after the choice exactly one request is sent, with the transcript as it
    is and the language chosen, and Status is [translating]. It is one
    request and not two because the render after the choice clears, by its
    id, the timer that may still be pending for the old language. *)
Theorem output_language_change_retranslates
    (w : World) (v : jsstring) (ms : nat) :
  reachable w ->
  v <> outputLang (react w) ->
  forallb is_white_space (original (react w)) = false ->
  1000 <= ms ->
  let w' := exec (run [SelectOutputLang v; Elapse ms]) w in
  exists r,
    sent w' = sent w ++ [r]
    /\ req_text r = original (react w)
    /\ req_outputLang r = v
    /\ status (react w') = lit "translating"
    /\ outputLang (react w') = v.
Proof.
  intros R N Nb G w'. subst w'.
  destruct (reachable_between_events w R) as (Hs & Ti & _ & _).
  pose proof (settled_pair_deps w Hs) as D.
  destruct Hs as [L P].
  rewrite !exec_run_cons. cbn [run exec ret snd].
  set (w0 := set_react (with_outputLang v (react w)) w).
  assert (E0 : exec (handle (SelectOutputLang v)) w = w0) by reflexivity.
  destruct (commit_rearms w0) as (id & cs & Fc & _ & C).
  { exact L. }
  { rewrite (pair_changed_iff w0 (pair_of w) D).
    unfold w0, pair_of. fields. rewrite str_eqb_refl. cbn [andb].
    rewrite str_eqb_neq by congruence. reflexivity. }
  { exact Ti. }
  assert (E1 : exec (step (SelectOutputLang v)) w = snd (commit w0))
    by (rewrite exec_step, E0; reflexivity).
  rewrite E1, C. cbn [snd].
  set (w1 := set_debounce_id _ _).
  assert (Hs1 : settled w1).
  { split; [exact L|]. unfold pair_changed, w1, w0, pair_of. fields.
    rewrite !str_eqb_refl. reflexivity. }
  assert (A1 : armed w1) by (exists id; split; reflexivity).
  destruct (elapse_fires ms w1 Hs1 A1 G) as (w2 & E2 & _ & P2 & _ & F).
  assert (Nb1 : forallb is_white_space (original (react w1)) = false)
    by exact Nb.
  destruct (F Nb1) as (r & Sr & _ & Rt & Rl & St).
  assert (E3 : exec (step (Elapse ms)) w1 = w2)
    by (unfold exec; rewrite E2; reflexivity).
  exists r. rewrite E3.
  split.
  { unfold sent. rewrite Sr. unfold w1, w0. project.
    rewrite fetches_app, Fc, app_nil_r. reflexivity. }
  split; [exact Rt|]. split; [exact Rl|]. split; [exact St|].
  unfold pair_of in P2. inversion P2 as [[Po Pl]]. rewrite Pl. reflexivity.
Qed.

Lemma output_language_change_witness :
  let w := exec (run consultation) mounted in
  exists r,
    sent (exec (run [SelectOutputLang (lit "es"); Elapse 1000]) w)
    = sent w ++ [r]
    /\ req_text r = lit "chest pain"
    /\ req_outputLang r = lit "es".
Proof.
  intros w.
  assert (R : reachable w)
    by (exists chrome, sample_voices, consultation; reflexivity).
  assert (N : lit "es" <> outputLang (react w)) by (vm_compute; discriminate).
  assert (B : forallb is_white_space (original (react w)) = false)
    by (vm_compute; reflexivity).
  destruct (output_language_change_retranslates w (lit "es") 1000 R N B
              (le_n 1000)) as (r & S & Rt & Rl & _).
  exists r. split; [exact S|]. split; [exact Rt | exact Rl].
Defined.

(* ===================================================================== *)
(** ** Sending a request, and the first render *)
(* ===================================================================== *)

(** [translateText] posts to [/api/translate] on the backend configured
    in VITE_BACKEND_URL, and on [http://localhost:3000] when that variable
    is undefined or empty. One request is sent, with the text given and the
    output language of the calling render; Status becomes [translating], and
    the translation shown stays as it is until the response arrives. *)
Theorem translateText_sends (scope : Scope) (t : jsstring) (w : World) :
  let w' := exec (translateText scope t) w in
  exists r,
    calls w' = calls w ++ [Fetch r]
    /\ inflight w' = inflight w ++ [r]
    /\ req_text r = t
    /\ req_outputLang r = outputLang scope
    /\ (vite_backend_url (env w) = None \/ vite_backend_url (env w) = Some [] ->
        req_url r = lit "http://localhost:3000/api/translate")
    /\ (forall c b, vite_backend_url (env w) = Some (c :: b) ->
        req_url r = (c :: b) ++ lit "/api/translate")
    /\ status (react w') = lit "translating"
    /\ translated (react w') = translated (react w)
    /\ original (react w') = original (react w).
Proof.
  unfold translateText. run_js. project. eexists.
  split; [reflexivity|]. split; [reflexivity|].
  cbn [req_text req_outputLang req_url].
  split; [reflexivity|]. split; [reflexivity|].
  split; [|split; [|repeat split]].
  - intros [E|E]; rewrite E; reflexivity.
  - intros c b E. rewrite E. reflexivity.
Qed.

Lemma translateText_sends_witness :
  let w := set_clock 0 mounted in
  exists r,
    calls (exec (translateText (react w) (lit "chest pain")) w)
    = calls w ++ [Fetch r]
    /\ req_url r = lit "http://localhost:3000/api/translate".
Proof.
  intros w.
  destruct (translateText_sends (react w) (lit "chest pain") w)
    as (r & C & _ & _ & _ & U & _).
  exists r. split; [exact C|]. apply U. left. reflexivity.
Defined.

(** The component as it is after the first render, in any browser. With
    speech recognition: Status is [idle], one recognizer exists, for en-US,
    not started, with its handlers closed over the empty transcript, and
    [recognitionRef] holds it. Without: Status is [no-speech-api] and there
    is no recognizer. In both cases the debounce timer is armed for the empty
    transcript and nothing has been sent. *)
Theorem mount_state (e : Environment) (vs : list Voice) :
  let w := mount e vs in
  (has_speech_recognition e = true ->
     status (react w) = lit "idle"
     /\ recognitionRef w = Some 0
     /\ heap w = [{| rec_continuous := true; rec_interimResults := true;
                     rec_lang := lit "en-US"; rec_maxAlternatives := 1%N;
                     rec_closure := Some (lit "");
                     rec_phase := Inactive |}])
  /\ (has_speech_recognition e = false ->
     status (react w) = lit "no-speech-api"
     /\ recognitionRef w = None
     /\ heap w = [])
  /\ listening (react w) = false
  /\ original (react w) = lit ""
  /\ translated (react w) = str ""
  /\ outputLang (react w) = lit "bn"
  /\ (exists t, timers w = [t] /\ deadline t = 1000
                /\ original (timer_scope t) = lit ""
                /\ debounce_id w = Some (timer_id t))
  /\ sent w = [].
Proof.
  destruct e as [has url]. cbn [has_speech_recognition].
  destruct has.
  - split; [intros _; repeat split|]. split; [discriminate|].
    repeat split. eexists. split; [reflexivity|]. repeat split.
  - split; [discriminate|]. split; [intros _; repeat split|].
    repeat split. eexists. split; [reflexivity|]. repeat split.
Qed.

Lemma mount_state_witness :
  status (react mounted) = lit "idle"
  /\ recognitionRef mounted = Some 0.
Proof.
  destruct (mount_state chrome sample_voices) as (H & _).
  destruct (H eq_refl) as (S & R & _). split; [exact S | exact R].
Defined.

Lemma commit_inflight : preserves inflight commit.
Proof. unfold commit. handlers. recognizer_calls. handlers. framing. Qed.

(** Clear does not call off a request that is already on its way: when
    its response arrives after the click, the translation it carries is
    published next to the empty transcript, with Status [translated]. *)
Theorem response_after_clear_is_published
    (w : World) (id : nat) (c : code_unit) (s : jsstring) :
  reachable w ->
  in_flight id w ->
  let o := Parsed (VObject [(lit "translated", VString (c :: s))]) in
  let w' := exec (run [ClickClear; Response id o]) w in
  original (react w') = []
  /\ translated (react w') = VString (c :: s)
  /\ status (react w') = lit "translated".
Proof.
  intros R F o w'. subst w'.
  pose proof (reachable_between_events w R) as B.
  rewrite !exec_run_cons. cbn [run exec ret snd].
  set (w1 := exec (step ClickClear) w).
  assert (B1 : between_events w1) by (apply step_between_events; exact B).
  assert (O1 : original (react w1) = [])
    by (apply step_clear_transcript; exact B).
  assert (F1 : in_flight id w1).
  { unfold in_flight, w1. rewrite exec_step, commit_inflight. exact F. }
  destruct B1 as (Hs1 & _).
  destruct (step_response id o w1 Hs1) as (t & st & E & S).
  unfold in_flight in F1. rewrite F1 in S.
  assert (Et : t = VString (c :: s) /\ st = lit "translated").
  { specialize (E w1). unfold o, translateText_resume in E.
    revert E. run_js. intros E.
    pose proof (f_equal (fun p => translated (react (snd p))) E) as X.
    pose proof (f_equal (fun p => status (react (snd p))) E) as Y.
    cbn [snd] in X, Y. revert X Y. fields. intros X Y.
    split; congruence. }
  destruct Et as [Et Es]. subst t st.
  unfold exec at 1 2 3. rewrite S. cbn [snd]. fields.
  repeat split. exact O1.
Qed.

Lemma response_after_clear_witness :
  let w := exec (run (consultation ++ [Elapse 1000])) mounted in
  let o := Parsed (VObject [(lit "translated", str "dolor en el pecho")]) in
  let w' := exec (run [ClickClear; Response 4 o]) w in
  original (react w') = []
  /\ translated (react w') = str "dolor en el pecho".
Proof.
  intros w o w'.
  assert (R : reachable w)
    by (exists chrome, sample_voices, (consultation ++ [Elapse 1000]);
        reflexivity).
  assert (F : in_flight 4 w) by (vm_compute; reflexivity).
  destruct (response_after_clear_is_published w 4 100%N
              (lit "olor en el pecho") R F) as (O & T & _).
  split; [exact O | exact T].
Defined.
